(** * VDom: the step-playback controller of [src/src/App.jsx]

    A shallow embedding of the state held by the [VirtualDOMDemo] component
    (its [useState] cells), of the handlers that update it, and of the two
    [useEffect] hooks, followed by the properties of the playback state
    machine and of the diff helper [getChangedIds]. *)

From Stdlib Require Import ZArith String DecimalString.
From stdpp Require Import gmap list.

Local Open Scope Z_scope.

(** ** Data model *)

(** An entry of the list: [{ id, name, selected }].  Ids are JavaScript
    numbers that only ever hold integers ([1], [2], [3], [Date.now()]). *)
Module Item.
Record t : Type := mk { id : Z; name : string; selected : bool }.
End Item.

(** The object kept in the [diff] cell: [{ prev, next, changedIds }]. *)
Module Diff.
Record t : Type := mk
  { prev : list Item.t; next : list Item.t; changedIds : list Z }.
End Diff.

Abbreviation Item := Item.t.
Abbreviation Diff := Diff.t.

Definition ids (l : list Item) : list Z := Item.id <$> l.

(** [list.map((item) => [item.id, item])]: the entries given to [new Map]. *)
Definition entries (l : list Item) : list (Z * Item) :=
  (fun item => (Item.id item, item)) <$> l.

(** [new Map(entries)]: the entries are set one after the other, so a later
    entry replaces an earlier one that has the same key. *)
Definition Map_new (entries : list (Z * Item)) : gmap Z Item :=
  foldl (fun m e => <[e.1 := e.2]> m) ∅ entries.

(** One round of [for (const item of next)]: an id is pushed when the item
    is missing from [prevMap] (added) or when the [selected] flag of the
    stored entry differs from the item's (toggled). *)
Definition pushAddedOrToggled (prevMap : gmap Z Item)
    (changed : list Z) (item : Item) : list Z :=
  match prevMap !! Item.id item with
  | None => changed ++ [Item.id item]
  | Some p =>
      if negb (Bool.eqb (Item.selected p) (Item.selected item))
      then changed ++ [Item.id item]
      else changed
  end.

(** One round of [for (const item of prev)]: removed ids. *)
Definition pushRemoved (nextMap : gmap Z Item)
    (changed : list Z) (item : Item) : list Z :=
  match nextMap !! Item.id item with
  | None => changed ++ [Item.id item]
  | Some _ => changed
  end.

Definition getChangedIds (prev next : list Item) : list Z :=
  let prevMap := Map_new (entries prev) in
  let nextMap := Map_new (entries next) in
  let changed := [] in
  let changed := foldl (pushAddedOrToggled prevMap) changed next in
  let changed := foldl (pushRemoved nextMap) changed prev in
  changed.

(** The three kinds of change, in the words of the data model. *)
Definition added (prev next : list Item) (i : Z) : Prop :=
  i ∈ ids next ∧ i ∉ ids prev.

Definition removed (prev next : list Item) (i : Z) : Prop :=
  i ∈ ids prev ∧ i ∉ ids next.

Definition toggled (prev next : list Item) (i : Z) : Prop :=
  ∃ p n, p ∈ prev ∧ n ∈ next ∧ Item.id p = i ∧ Item.id n = i
         ∧ Item.selected p ≠ Item.selected n.

(** ** The state of the component

    One field per [useState] cell.  [pendingItems] holds [null] ([None]) or
    an array; [step] is a JavaScript number that the handlers only ever
    increment, decrement and compare, so it is an integer. *)
Record State : Type := mkState {
  items : list Item;
  pendingItems : option (list Item);
  showDiff : bool;
  step : Z;
  renderPhase : bool;
  commitPhase : bool;
  diff : Diff;
  showCodeExample : bool;
  isAutoMode : bool;
  isProcessActive : bool }.

Definition setItems (v : list Item) (s : State) : State :=
  mkState v (pendingItems s) (showDiff s) (step s) (renderPhase s)
    (commitPhase s) (diff s) (showCodeExample s) (isAutoMode s)
    (isProcessActive s).

Definition setPendingItems (v : option (list Item)) (s : State) : State :=
  mkState (items s) v (showDiff s) (step s) (renderPhase s)
    (commitPhase s) (diff s) (showCodeExample s) (isAutoMode s)
    (isProcessActive s).

Definition setShowDiff (v : bool) (s : State) : State :=
  mkState (items s) (pendingItems s) v (step s) (renderPhase s)
    (commitPhase s) (diff s) (showCodeExample s) (isAutoMode s)
    (isProcessActive s).

Definition setStep (v : Z) (s : State) : State :=
  mkState (items s) (pendingItems s) (showDiff s) v (renderPhase s)
    (commitPhase s) (diff s) (showCodeExample s) (isAutoMode s)
    (isProcessActive s).

Definition setRenderPhase (v : bool) (s : State) : State :=
  mkState (items s) (pendingItems s) (showDiff s) (step s) v
    (commitPhase s) (diff s) (showCodeExample s) (isAutoMode s)
    (isProcessActive s).

Definition setCommitPhase (v : bool) (s : State) : State :=
  mkState (items s) (pendingItems s) (showDiff s) (step s) (renderPhase s)
    v (diff s) (showCodeExample s) (isAutoMode s) (isProcessActive s).

Definition setDiff (v : Diff) (s : State) : State :=
  mkState (items s) (pendingItems s) (showDiff s) (step s) (renderPhase s)
    (commitPhase s) v (showCodeExample s) (isAutoMode s) (isProcessActive s).

Definition setShowCodeExample (v : bool) (s : State) : State :=
  mkState (items s) (pendingItems s) (showDiff s) (step s) (renderPhase s)
    (commitPhase s) (diff s) v (isAutoMode s) (isProcessActive s).

Definition setIsAutoMode (v : bool) (s : State) : State :=
  mkState (items s) (pendingItems s) (showDiff s) (step s) (renderPhase s)
    (commitPhase s) (diff s) (showCodeExample s) v (isProcessActive s).

Definition setIsProcessActive (v : bool) (s : State) : State :=
  mkState (items s) (pendingItems s) (showDiff s) (step s) (renderPhase s)
    (commitPhase s) (diff s) (showCodeExample s) (isAutoMode s) v.

Definition initialItems : list Item :=
  [ Item.mk 1 "Apple" false; Item.mk 2 "Banana" false;
    Item.mk 3 "Cherry" false ].

(** The values given to [useState] on the first render. *)
Definition initialState : State :=
  {| items := initialItems;
     pendingItems := None;
     showDiff := false;
     step := 0;
     renderPhase := false;
     commitPhase := false;
     diff := Diff.mk initialItems initialItems [];
     showCodeExample := false;
     isAutoMode := true;
     isProcessActive := false |}.

Definition MAX_STEP : Z := 5.

(** ** Step control

    A handler is a function of two states.  The first, [env], is the render
    the handler was created in: what its closure reads when it mentions a
    state variable ([pendingItems], [diff], [items], [isProcessActive]).
    The second is the state its [set...] calls are applied to, in program
    order; the argument [prev] of an updater function is read from it. *)
Definition startProcess (diffObj : Diff) (s : State) : State :=
  let s := setDiff diffObj s in
  let s := setShowDiff true s in
  let s := setStep 1 s in
  let s := setRenderPhase true s in
  let s := setCommitPhase false s in
  let s := setIsProcessActive true s in
  setPendingItems (Some (Diff.next diffObj)) s.

Definition resetProcess (s : State) : State :=
  let s := setShowDiff false s in
  let s := setCommitPhase false s in
  let s := setRenderPhase false s in
  let s := setStep 0 s in
  let s := setIsProcessActive false s in
  setPendingItems None s.

(** [if (pendingItems)]: of the values the cell holds only [null] is falsy,
    an array is truthy even when it is empty. *)
Definition nextStep (env : State) (s : State) : State :=
  let prev := step s in
  let next := prev + 1 in
  let s :=
    if next =? 4 then
      let s := setRenderPhase false s in
      let s := setCommitPhase true s in
      let s := match pendingItems env with
               | Some pending => setItems pending s
               | None => s
               end in
      setPendingItems None s
    else s in
  if next >? MAX_STEP then setStep 0 (resetProcess s)
  else setStep next s.

(** The test of an array in a condition: always true. *)
Definition arrayTruthy (l : list Item) : bool := true.

Definition previousStep (env : State) (s : State) : State :=
  let prev := step s in
  let next := Z.max 1 (prev - 1) in
  let s :=
    if (prev >=? 4) && (next <=? 3) then
      let s := setCommitPhase false s in
      let s := setRenderPhase true s in
      if arrayTruthy (Diff.prev (diff env))
         && arrayTruthy (Diff.next (diff env))
      then
        let s := setItems (Diff.prev (diff env)) s in
        setPendingItems (Some (Diff.next (diff env))) s
      else s
    else s in
  setStep next s.

(** ** Item actions *)
Definition toggleItem (id : Z) (env : State) (s : State) : State :=
  if isProcessActive env then s
  else
    let nextItems :=
      (fun item =>
         if Item.id item =? id
         then Item.mk (Item.id item) (Item.name item)
                (negb (Item.selected item))
         else item) <$> items env in
    startProcess
      (Diff.mk (items env) nextItems (getChangedIds (items env) nextItems)) s.

(** [`Item ${n}`] *)
Definition itemName (n : nat) : string :=
  ("Item " ++ NilZero.string_of_uint (Nat.to_uint n))%string.

(** [dateNow] is the value [Date.now()] returns during the call. *)
Definition addItem (dateNow : Z) (env : State) (s : State) : State :=
  if isProcessActive env then s
  else
    let newItem :=
      Item.mk dateNow (itemName (length (items env) + 1)) false in
    let nextItems := items env ++ [newItem] in
    startProcess
      (Diff.mk (items env) nextItems (getChangedIds (items env) nextItems)) s.

Definition removeItem (id : Z) (env : State) (s : State) : State :=
  if isProcessActive env then s
  else
    let nextItems :=
      filter (fun item => Item.id item ≠ id) (items env) in
    startProcess
      (Diff.mk (items env) nextItems (getChangedIds (items env) nextItems)) s.

(** [setIsAutoMode((prev) => !prev)], the only way the mode is set. *)
Definition toggleAutoMode (s : State) : State :=
  setIsAutoMode (negb (isAutoMode s)) s.

(** A handler called from the render that shows the current state: its
    closure and the state it updates coincide. *)
Definition call (h : State → State → State) (s : State) : State := h s s.

(** The public operations as the spec names them. *)
Definition toggle (id : Z) : State → State := call (toggleItem id).
Definition add (dateNow : Z) : State → State := call (addItem dateNow).
Definition remove (id : Z) : State → State := call (removeItem id).
Definition advance : State → State := call nextStep.
Definition retreat : State → State := call previousStep.
Definition reset : State → State := resetProcess.
Definition start (cs : Diff) : State → State := startProcess cs.

(** ** The mounted component: effects, timer and events

    [setTimeout(() => nextStep(), 800)] leaves one pending timer; it is
    kept with the time it is due at and with the render whose [nextStep] it
    will call.  [now] is the clock that timers are measured on. *)
Record Timer : Type := mkTimer { due : Z; callback : State }.

Record Component : Type := mkComponent {
  now : Z;
  state : State;
  timer : option Timer }.

Definition AUTO_DELAY : Z := 800.

(** The dependency array [[step, isAutoMode, isProcessActive]]. *)
Definition autoDeps (s : State) : Z * bool * bool :=
  (step s, isAutoMode s, isProcessActive s).

(** The body of the auto-mode effect, run on the render [s] at time [t]:
    the timer it leaves pending, if any. *)
Definition autoEffect (t : Z) (s : State) : option Timer :=
  if negb (isProcessActive s) || negb (isAutoMode s) then None
  else if (step s =? 0) || (step s >? MAX_STEP) then None
  else Some (mkTimer (t + AUTO_DELAY) s).

(** After the render [s] that follows the render [old]: when a dependency
    changed, the cleanup of the previous run ([clearTimeout]) and then the
    effect itself; otherwise the pending timer is left alone. *)
Definition runAutoEffect (old s : State) (t : Z) (pending : option Timer)
    : option Timer :=
  if bool_decide (autoDeps old = autoDeps s) then pending
  else autoEffect t s.

(** The second effect, [if (step > MAX_STEP) resetProcess()], with the
    dependency array [[step]]: whether it calls [resetProcess]. *)
Definition overflowEffect (old s : State) : bool :=
  negb (bool_decide (step old = step s)) && (step s >? MAX_STEP).

(** The effects that follow a state change from [old] to [state c].  When
    the second effect resets the process, the component renders once more
    and its effects run again; that render has [step = 0], so the second
    effect is silent there. *)
Definition afterRender (old : State) (c : Component) : Component :=
  let s := state c in
  let pending := runAutoEffect old s (now c) (timer c) in
  if overflowEffect old s then
    let s' := resetProcess s in
    mkComponent (now c) s' (runAutoEffect s s' (now c) pending)
  else mkComponent (now c) s pending.

(** The first render and its effects. *)
Definition mount (t : Z) : Component :=
  mkComponent t initialState (autoEffect t initialState).

(** What can happen to the mounted component: a click on one of its
    buttons, or time passing. *)
Inductive Event : Type :=
  | ClickToggleApple
  | ClickAdd (dateNow : Z)
  | ClickRemoveLast
  | ClickMode
  | ClickNext
  | ClickPrevious
  | ClickReset
  | ClickCodeExample
  | Elapse (d : N).

(** The [disabled] attribute of each button, negated. *)
Definition enabled (e : Event) (s : State) : bool :=
  match e with
  | ClickToggleApple | ClickAdd _ => negb (isProcessActive s)
  | ClickRemoveLast =>
      negb ((length (items s) =? 0)%nat || isProcessActive s)
  | ClickNext =>
      negb (negb (isProcessActive s) || isAutoMode s || (step s =? 0)
            || (step s >? MAX_STEP))
  | ClickPrevious =>
      negb (negb (isProcessActive s) || isAutoMode s || (step s <=? 1))
  | ClickReset => negb (negb (isProcessActive s))
  | ClickMode | ClickCodeExample | Elapse _ => true
  end.

(** [items[items.length - 1]?.id].  On an empty list the expression is
    [undefined], which no id equals and which [removeItem] only compares
    with the ids of the (then absent) items; the button is disabled then. *)
Definition lastId (l : list Item) : Z :=
  match last l with
  | Some item => Item.id item
  | None => 0
  end.

(** The [onClick] of each button, called from the current render. *)
Definition onClick (e : Event) (s : State) : State :=
  match e with
  | ClickToggleApple => call (toggleItem 1) s
  | ClickAdd dateNow => call (addItem dateNow) s
  | ClickRemoveLast => call (removeItem (lastId (items s))) s
  | ClickMode => toggleAutoMode s
  | ClickNext => call nextStep s
  | ClickPrevious => call previousStep s
  | ClickReset => resetProcess s
  | ClickCodeExample => setShowCodeExample (negb (showCodeExample s)) s
  | Elapse _ => s
  end.

(** The pending timer [tm] fires: it is used up and calls the [nextStep] of
    the render it was created in; the effects follow. *)
Definition fire (tm : Timer) (c : Component) : Component :=
  afterRender (state c)
    (mkComponent (now c) (nextStep (callback tm) (state c)) None).

(** One time unit passes; a timer that has become due fires. *)
Definition tick (c : Component) : Component :=
  let t := now c + 1 in
  match timer c with
  | Some tm =>
      if due tm <=? t
      then fire tm (mkComponent t (state c) (timer c))
      else mkComponent t (state c) (timer c)
  | None => mkComponent t (state c) None
  end.

(** [d] time units pass, one after the other: a timer fires when it is
    due, and the timer that this leaves pending fires in its turn when the
    time that remains reaches it. *)
Definition elapse (d : N) (c : Component) : Component := N.iter d tick c.

Definition handle (e : Event) (c : Component) : Component :=
  match e with
  | Elapse d => elapse d c
  | _ =>
      if enabled e (state c)
      then afterRender (state c)
             (mkComponent (now c) (onClick e (state c)) (timer c))
      else c
  end.


(** The events that call one of the three item actions. *)
Definition isMutation (e : Event) : bool :=
  match e with
  | ClickToggleApple | ClickAdd _ | ClickRemoveLast => true
  | _ => false
  end.

(** ** Predicates on states *)

(** The state [Idle] of the controller. *)
Definition Idle (s : State) : Prop :=
  step s = 0 ∧ isProcessActive s = false.

(** [active == false ⇔ step == 0] *)
Definition activeIffStep (s : State) : Prop :=
  isProcessActive s = false ↔ step s = 0.

(** [step] is an integer in [[0,5]]. *)
Definition stepInRange (s : State) : Prop := 0 ≤ step s ≤ MAX_STEP.

(** The window in which the auto-mode effect leaves a timer. *)
Definition activeWindow (s : State) : Prop :=
  isProcessActive s = true ∧ 0 < step s ≤ MAX_STEP.

(** Throughout the render phase the pending list is [diff.next]. *)
Definition renderPending (s : State) : Prop :=
  1 ≤ step s ≤ 3 → pendingItems s = Some (Diff.next (diff s)).

(** The components that the page can be in: mounted at some time, then
    any sequence of events. *)
Inductive reachable : Component → Prop :=
  | reachable_mount (t : Z) : reachable (mount t)
  | reachable_handle (e : Event) (c : Component) :
      reachable c → reachable (handle e c).

(** What holds of every reachable component: the invariant of the playback
    state, the range of [step], a pending list throughout the render phase,
    and a timer only while the process is active in auto mode, whose
    closure saw the pending list that is current. *)
Record consistent (c : Component) : Prop := mkConsistent {
  consistent_active : activeIffStep (state c);
  consistent_range : stepInRange (state c);
  consistent_pending : renderPending (state c);
  consistent_timer :
    ∀ tm, timer c = Some tm →
      isProcessActive (state c) = true ∧ isAutoMode (state c) = true
      ∧ pendingItems (callback tm) = pendingItems (state c) }.

(** ** Diff visualisation helpers *)

(** [list.some((item) => item.id === id)] *)
Definition someId (id : Z) (l : list Item) : bool :=
  existsb (fun item => Item.id item =? id) l.

(** The result is one of the strings ['added'], ['removed'], ['changed'],
    or [null]. *)
Definition getItemChangeType (id : Z) (prev next : list Item)
    : option string :=
  let inPrev := someId id prev in
  let inNext := someId id next in
  if negb inPrev && inNext then Some "added"%string
  else if inPrev && negb inNext then Some "removed"%string
  else if inPrev && inNext then Some "changed"%string
  else None.

(** [highlight.includes(id)] *)
Definition includes (highlight : list Z) (id : Z) : bool :=
  existsb (fun h => h =? id) highlight.

(** [type === 'added'] for a [type] that is a string or [null]. *)
Definition typeIs (type : option string) (v : string) : bool :=
  match type with
  | Some t => String.eqb t v
  | None => false
  end.

Definition COLOR_ADDED : string :=
  "bg-emerald-100 border border-emerald-300 text-emerald-800".
Definition COLOR_REMOVED : string :=
  "bg-red-100 border border-red-300 text-red-800".
Definition COLOR_CHANGED : string :=
  "bg-amber-100 border border-amber-300 text-amber-800".

(** The [color] that [VirtualTree] computes for the row of [item]; the
    [icon] is assigned in the same three branches. *)
Definition rowColor (highlight : list Z) (prev next : list Item)
    (item : Item) : string :=
  let color := ""%string in
  if includes highlight (Item.id item) then
    let type := getItemChangeType (Item.id item) prev next in
    if typeIs type "added" then COLOR_ADDED
    else if typeIs type "removed" then COLOR_REMOVED
    else if typeIs type "changed" then COLOR_CHANGED
    else color
  else color.

(** [diff.changedIds.filter(id => diff.prev.some(item => item.id === id))]
    and the same with [diff.next]: the [highlight] of the two trees. *)
Definition prevHighlight (d : Diff) : list Z :=
  List.filter (fun id => someId id (Diff.prev d)) (Diff.changedIds d).

Definition nextHighlight (d : Diff) : list Z :=
  List.filter (fun id => someId id (Diff.next d)) (Diff.changedIds d).

(** The row colors of the tree "Previous Virtual DOM" and of the tree
    "New Virtual DOM". *)
Definition prevTree (d : Diff) : list string :=
  rowColor (prevHighlight d) (Diff.prev d) (Diff.next d) <$> Diff.prev d.

Definition nextTree (d : Diff) : list string :=
  rowColor (nextHighlight d) (Diff.prev d) (Diff.next d) <$> Diff.next d.

(** ** The Fiber trees of the second version of the page

    [renderFiberTree(items, treeType)] marks the node of an item with a
    badge when [diff.changedIds.includes(item.id)]: ["NEW"] in the
    work-in-progress tree, ["OLD"] in the current tree. *)
Definition fiberBadge (d : Diff) (treeType : string) (item : Item)
    : option string :=
  let isWorkInProgress := String.eqb treeType "workInProgress" in
  if includes (Diff.changedIds d) (Item.id item)
  then Some (if isWorkInProgress then "NEW" else "OLD")%string
  else None.

(** [renderFiberTree(diff.prev, "current")] and
    [renderFiberTree(diff.next, "workInProgress")], as the badges of their
    nodes. *)
Definition currentFiberTree (d : Diff) : list (option string) :=
  fiberBadge d "current" <$> Diff.prev d.

Definition workInProgressFiberTree (d : Diff) : list (option string) :=
  fiberBadge d "workInProgress" <$> Diff.next d.

(** ** What the page shows of the step *)

(** The five cells of the stepper: label and color. *)
Definition stepperCells : list (string * string) :=
  [ ("Trigger", "blue"); ("Render", "blue"); ("Reconcile", "blue");
    ("Commit", "teal"); ("Effects", "teal") ]%string.

(** The class of the cell at index [idx]. *)
Definition cellClass (step : Z) (idx : nat) (color : string) : string :=
  if step >=? Z.of_nat idx + 1 then
    if String.eqb color "blue"
    then "bg-blue-50 border-blue-400 shadow-blue-200"%string
    else "bg-teal-50 border-teal-400 shadow-teal-200"%string
  else "bg-white border-slate-200 shadow-slate-200"%string.

Definition stepper (step : Z) : list string :=
  imap (fun idx stepObj => cellClass step idx stepObj.2) stepperCells.

(** [step === k && (...)]: the detail panel of step [k]. *)
Definition detailPanel (k : Z) (s : State) : bool := step s =? k.

(** [step >= 3 && step < 4 && (...)] and [step >= 4 && (...)] *)
Definition reconciliationPanel (s : State) : bool :=
  (step s >=? 3) && (step s <? 4).

Definition commitPanel (s : State) : bool := step s >=? 4.

(** ** What the page shows of a reachable component *)

(** The phase flags follow the step, the trees are shown while the process
    is active, a pending list exists in the render phase only, the list on
    display is the old one before the commit and the new one after it, and
    the stored [changedIds] is the diff of the stored lists. *)
Record displayed (s : State) : Prop := mkDisplayed {
  displayed_render : renderPhase s = true ↔ 1 ≤ step s ≤ 3;
  displayed_commit : commitPhase s = true ↔ 4 ≤ step s;
  displayed_showDiff : showDiff s = isProcessActive s;
  displayed_pending :
    pendingItems s = None ∨
    (1 ≤ step s ≤ 3 ∧ pendingItems s = Some (Diff.next (diff s)));
  displayed_before : 1 ≤ step s ≤ 3 → items s = Diff.prev (diff s);
  displayed_after : 4 ≤ step s → items s = Diff.next (diff s);
  displayed_changedIds :
    Diff.changedIds (diff s)
    = getChangedIds (Diff.prev (diff s)) (Diff.next (diff s)) }.

(** [item.id === id ? { ...item, selected: !item.selected } : item], the
    function that [toggleItem] maps over the list. *)
Definition flipSelected (id : Z) (item : Item) : Item :=
  if Item.id item =? id
  then Item.mk (Item.id item) (Item.name item) (negb (Item.selected item))
  else item.

(** ** Tactics *)

(** Case analysis on the integer comparisons and [null] tests of a
    handler. *)
Ltac zcases :=
  repeat match goal with
    | |- context [(?a >? ?b)] => rewrite (Z.gtb_ltb a b)
    | |- context [(?a >=? ?b)] => rewrite (Z.geb_leb a b)
    | |- context [(?a =? ?b)] => destruct (Z.eqb_spec a b)
    | |- context [(?a <? ?b)] => destruct (Z.ltb_spec a b)
    | |- context [(?a <=? ?b)] => destruct (Z.leb_spec a b)
    | |- context [match ?o with Some _ => _ | None => _ end] =>
        destruct o eqn:?
    end.

(** Unfold a handler on a state given by its fields. *)
Ltac run :=
  unfold advance, retreat, reset, start, toggle, add, remove, call,
    nextStep, previousStep, resetProcess, startProcess, toggleItem, addItem,
    removeItem, toggleAutoMode, arrayTruthy, MAX_STEP in *;
  cbn [items pendingItems showDiff step renderPhase commitPhase diff
       showCodeExample isAutoMode isProcessActive
       setItems setPendingItems setShowDiff setStep setRenderPhase
       setCommitPhase setDiff setShowCodeExample setIsAutoMode
       setIsProcessActive andb orb negb] in *.

(** ** The diff helper [getChangedIds] *)

Section GetChangedIds.
Implicit Types (l prev next : list Item) (i : Z) (p n : Item)
  (m : gmap Z Item) (c : list Z).

Lemma Map_new_snoc l p :
  Map_new (entries (l ++ [p])) = <[Item.id p := p]> (Map_new (entries l)).
Proof. unfold Map_new, entries. by rewrite fmap_app, foldl_app. Qed.

Lemma Map_new_None l i : Map_new (entries l) !! i = None ↔ i ∉ ids l.
Proof.
  induction l as [|p l IH] using rev_ind.
  - split; [|done]. intros _. unfold ids. apply not_elem_of_nil.
  - rewrite Map_new_snoc, lookup_insert_None, IH. unfold ids.
    rewrite fmap_app, not_elem_of_app. simpl.
    rewrite list_elem_of_singleton. intuition congruence.
Qed.

Lemma Map_new_Some_inv l i p :
  Map_new (entries l) !! i = Some p → p ∈ l ∧ Item.id p = i.
Proof.
  induction l as [|q l IH] using rev_ind; [done|].
  rewrite Map_new_snoc, lookup_insert_Some, elem_of_app.
  rewrite list_elem_of_singleton.
  intros [[<- <-]|[_ H]]; [by auto|]. apply IH in H. tauto.
Qed.

(** With unique ids the map returns the one item that carries the id. *)
Lemma Map_new_Some l i p :
  NoDup (ids l) → p ∈ l → Item.id p = i → Map_new (entries l) !! i = Some p.
Proof.
  intros Hnd Hin <-.
  destruct (Map_new (entries l) !! Item.id p) as [q|] eqn:Hq.
  - apply Map_new_Some_inv in Hq as [Hq Hid]. f_equal.
    apply list_elem_of_lookup in Hq as [a Ha], Hin as [b Hb].
    assert (a = b) as ->; [|congruence].
    apply (NoDup_lookup (ids l) a b (Item.id p)); [done|..];
      unfold ids; rewrite list_lookup_fmap; [rewrite Ha|rewrite Hb];
      simpl; congruence.
  - apply Map_new_None in Hq. exfalso. apply Hq.
    unfold ids. by apply list_elem_of_fmap_2.
Qed.

(** One round of each loop. *)
Lemma elem_of_pushAddedOrToggled_1 m c n i :
  i ∈ pushAddedOrToggled m c n ↔
  i ∈ c ∨ (Item.id n = i ∧
    (m !! i = None ∨ ∃ p, m !! i = Some p
                         ∧ Item.selected p ≠ Item.selected n)).
Proof.
  unfold pushAddedOrToggled.
  destruct (m !! Item.id n) as [q|] eqn:Hq.
  - destruct (Bool.eqb_spec (Item.selected q) (Item.selected n)) as [He|He];
      simpl; rewrite ?elem_of_app, ?list_elem_of_singleton.
    + split; [by left|]. intros [?|[<- [HH|(p & Hp & HH)]]]; [done|..];
        congruence.
    + split; [|intros [?|[<- _]]; by auto].
      intros [?| ->]; [by left|]. right. split; [done|]. right. by exists q.
  - rewrite elem_of_app, list_elem_of_singleton. split.
    + intros [?| ->]; by auto.
    + intros [?|[<- _]]; by auto.
Qed.

Lemma elem_of_pushRemoved_1 m c p i :
  i ∈ pushRemoved m c p ↔ i ∈ c ∨ (Item.id p = i ∧ m !! i = None).
Proof.
  unfold pushRemoved. destruct (m !! Item.id p) as [q|] eqn:Hq.
  - split; [by left|]. intros [?|[<- ?]]; [done|congruence].
  - rewrite elem_of_app, list_elem_of_singleton. split.
    + intros [?| ->]; by auto.
    + intros [?|[<- _]]; by auto.
Qed.

(** Membership after the first loop. *)
Lemma elem_of_pushAddedOrToggled m c l i :
  i ∈ foldl (pushAddedOrToggled m) c l ↔
  i ∈ c ∨ ∃ n, n ∈ l ∧ Item.id n = i ∧
    (m !! i = None ∨ ∃ p, m !! i = Some p
                         ∧ Item.selected p ≠ Item.selected n).
Proof.
  revert c. induction l as [|x l IH]; intros c; simpl.
  - split; [by left|]. intros [?|(n & Hn & _)]; [done|].
    by apply elem_of_nil in Hn.
  - rewrite IH, elem_of_pushAddedOrToggled_1.
    setoid_rewrite elem_of_cons. split.
    + intros [[?|[? ?]]|(n & ? & ? & ?)];
        [by left|right; exists x; by auto|right; exists n; by auto].
    + intros [?|(n & [->|?] & ? & ?)];
        [by auto|by auto|right; exists n; by auto].
Qed.

(** Membership after the second loop. *)
Lemma elem_of_pushRemoved m c l i :
  i ∈ foldl (pushRemoved m) c l ↔
  i ∈ c ∨ (i ∈ ids l ∧ m !! i = None).
Proof.
  revert c. induction l as [|x l IH]; intros c; simpl.
  - split; [by left|]. intros [?|[Hn _]]; [done|].
    by apply elem_of_nil in Hn.
  - rewrite IH, elem_of_pushRemoved_1. unfold ids. rewrite elem_of_cons.
    split.
    + intros [[?|[? ?]]|[? ?]]; by auto.
    + intros [?|[[->|?] ?]]; by auto.
Qed.

(** Neither loop pushes an id twice when the ids it runs over are
    distinct and those it pushes are new. *)
Lemma NoDup_pushAddedOrToggled m c l :
  NoDup c → NoDup (ids l) → (∀ i, i ∈ ids l → i ∉ c) →
  NoDup (foldl (pushAddedOrToggled m) c l).
Proof.
  revert c. induction l as [|x l IH]; intros c Hc Hl Hfresh; [done|].
  simpl in *. apply NoDup_cons in Hl as [Hx Hl].
  assert (Item.id x ∉ c) as Hxc by (apply Hfresh; left).
  apply IH; [|done|].
  - unfold pushAddedOrToggled.
    destruct (m !! Item.id x) as [q|]; [destruct (negb _)|]; try done;
      apply NoDup_app; (split; [done|split; [|apply NoDup_singleton]]);
      intros i Hi ->%list_elem_of_singleton; done.
  - intros i Hi [Hic|[<- _]]%elem_of_pushAddedOrToggled_1; [|done].
    by apply (Hfresh i); [right|].
Qed.

Lemma NoDup_pushRemoved m c l :
  NoDup c → NoDup (ids l) → (∀ i, i ∈ ids l → m !! i = None → i ∉ c) →
  NoDup (foldl (pushRemoved m) c l).
Proof.
  revert c. induction l as [|x l IH]; intros c Hc Hl Hfresh; [done|].
  simpl in *. apply NoDup_cons in Hl as [Hx Hl].
  apply IH; [|done|].
  - unfold pushRemoved.
    destruct (m !! Item.id x) as [q|] eqn:Hq; [done|].
    apply NoDup_app; (split; [done|split; [|apply NoDup_singleton]]).
    intros i Hi ->%list_elem_of_singleton. revert Hi.
    apply Hfresh; [left|done].
  - intros i Hi Hm [Hic|[<- _]]%elem_of_pushRemoved_1; [|done].
    by apply (Hfresh i); [right| |].
Qed.
End GetChangedIds.

(** With unique ids in [prev], membership in the result is membership in
    one of the three kinds of change. *)
Lemma elem_of_getChangedIds (prev next : list Item) (i : Z) :
  NoDup (ids prev) →
  i ∈ getChangedIds prev next ↔
  added prev next i ∨ toggled prev next i ∨ removed prev next i.
Proof.
  intros Hprev. unfold getChangedIds. cbv zeta.
  rewrite elem_of_pushRemoved, elem_of_pushAddedOrToggled.
  setoid_rewrite Map_new_None.
  unfold added, toggled, removed. split.
  - intros [[[]%elem_of_nil|(n & Hn & Hid & [Hnone|(p & Hp & Hsel)])]|Hrem].
    + left. split; [|done]. subst i. by apply list_elem_of_fmap_2.
    + right; left. apply Map_new_Some_inv in Hp as [Hp Hpi].
      by exists p, n.
    + by right; right.
  - intros [[Hin Hout]|[(p & n & Hp & Hn & Hpi & Hni & Hsel)|Hrem]].
    + left; right. apply list_elem_of_fmap in Hin as (n & -> & Hn).
      exists n. by auto.
    + left; right. exists n. do 2 (split; [done|]). right. exists p.
      split; [by apply Map_new_Some|done].
    + by right.
Qed.

(** C1.  For lists [prev] and [next] with unique ids, the ids returned by
    [getChangedIds prev next] are exactly those that are added (in [next],
    not in [prev]), toggled (in both, with different [selected] flags) or
    removed (in [prev], not in [next]); hence every returned id is an id of
    [prev] or of [next].  No id is returned twice. *)
Theorem getChangedIds_exact (prev next : list Item) :
  NoDup (ids prev) → NoDup (ids next) →
  (∀ i, i ∈ getChangedIds prev next ↔
        added prev next i ∨ toggled prev next i ∨ removed prev next i)
  ∧ (∀ i, i ∈ getChangedIds prev next → i ∈ ids prev ∨ i ∈ ids next)
  ∧ NoDup (getChangedIds prev next).
Proof.
  intros Hprev Hnext.
  assert (Hiff := λ i, elem_of_getChangedIds prev next i Hprev).
  split; [done|]. split.
  - intros i [[H _]|[(p & n & Hp & _ & <- & _)|[H _]]]%Hiff; [by right| |by left].
    left. by apply list_elem_of_fmap_2.
  - unfold getChangedIds. apply NoDup_pushRemoved; [|done|].
    + apply NoDup_pushAddedOrToggled; [apply NoDup_nil_2|done|].
      intros i _. apply not_elem_of_nil.
    + intros i _ Hnone%Map_new_None.
      rewrite elem_of_pushAddedOrToggled.
      intros [[]%elem_of_nil|(n & Hn & <- & _)].
      apply Hnone. by apply list_elem_of_fmap_2.
Qed.

(** An instance: Apple is toggled, Banana removed, Cherry added. *)
Lemma getChangedIds_exact_witness :
  let prev := [Item.mk 1 "Apple" false; Item.mk 2 "Banana" false] in
  let next := [Item.mk 1 "Apple" true; Item.mk 3 "Cherry" false] in
  (∀ i, i ∈ getChangedIds prev next ↔
        added prev next i ∨ toggled prev next i ∨ removed prev next i)
  ∧ (∀ i, i ∈ getChangedIds prev next → i ∈ ids prev ∨ i ∈ ids next)
  ∧ NoDup (getChangedIds prev next).
Proof.
  intros prev next.
  apply (getChangedIds_exact prev next);
    refine (bool_decide_unpack (NoDup _) _); vm_compute; exact I.
Defined.

Example getChangedIds_toggle_remove_add :
  getChangedIds [Item.mk 1 "Apple" false; Item.mk 2 "Banana" false]
                [Item.mk 1 "Apple" true; Item.mk 3 "Cherry" false]
  = [1; 3; 2].
Proof. vm_compute. reflexivity. Qed.

(** ** The step controller *)

Section StepController.
Implicit Types (s : State) (cs : Diff).

Lemma step_startProcess cs s : step (startProcess cs s) = 1.
Proof. reflexivity. Qed.

Lemma step_nextStep env s :
  step (nextStep env s) = if step s + 1 >? MAX_STEP then 0 else step s + 1.
Proof. destruct s. run. zcases; simpl; try lia; done. Qed.

Lemma step_previousStep env s :
  step (previousStep env s) = Z.max 1 (step s - 1).
Proof. destruct s. run. zcases; simpl; try lia; done. Qed.

Lemma isProcessActive_nextStep env s :
  isProcessActive (nextStep env s) =
  if step s + 1 >? MAX_STEP then false else isProcessActive s.
Proof. destruct s. run. zcases; simpl; try lia; done. Qed.

Lemma isProcessActive_previousStep env s :
  isProcessActive (previousStep env s) = isProcessActive s.
Proof. destruct s. run. zcases; simpl; try lia; done. Qed.

Lemma isAutoMode_nextStep env s :
  isAutoMode (nextStep env s) = isAutoMode s.
Proof. destruct s. run. zcases; simpl; try lia; done. Qed.

(** A handler that runs while the process is active changes nothing. *)
Lemma toggleItem_active id s :
  isProcessActive s = true → toggle id s = s.
Proof. intros H. run. by rewrite H. Qed.

Lemma addItem_active dateNow s :
  isProcessActive s = true → add dateNow s = s.
Proof. intros H. run. by rewrite H. Qed.

Lemma removeItem_active id s :
  isProcessActive s = true → remove id s = s.
Proof. intros H. run. by rewrite H. Qed.

(** Otherwise it hands its diff to [startProcess]. *)
Lemma toggleItem_idle id s :
  isProcessActive s = false → ∃ cs, toggle id s = start cs s.
Proof. intros H. run. rewrite H. by eexists. Qed.

Lemma addItem_idle dateNow s :
  isProcessActive s = false → ∃ cs, add dateNow s = start cs s.
Proof. intros H. run. rewrite H. by eexists. Qed.

Lemma removeItem_idle id s :
  isProcessActive s = false → ∃ cs, remove id s = start cs s.
Proof. intros H. run. rewrite H. by eexists. Qed.

Lemma start_changes_active cs s :
  isProcessActive s = false → start cs s ≠ s.
Proof. intros H Heq. rewrite <- Heq in H. discriminate H. Qed.
End StepController.

(** C2.  [advance] adds one to [step] unless that exceeds [MAX_STEP].  When
    the new step is 4, [items] becomes the pending list (the code keeps
    [items] when the cell holds [null]) and [pendingItems] is cleared; for
    any other new step [items] is left as it was.  When the new step
    exceeds 5, [advance] is a full [reset]: step 0, not active. *)
Theorem advance_spec (s : State) :
  (step s + 1 ≤ MAX_STEP → step (advance s) = step s + 1)
  ∧ (step s + 1 = 4 →
       items (advance s) = default (items s) (pendingItems s)
       ∧ pendingItems (advance s) = None)
  ∧ (step s + 1 ≠ 4 → items (advance s) = items s)
  ∧ (MAX_STEP < step s + 1 →
       advance s = reset s ∧ Idle (advance s)
       ∧ pendingItems (advance s) = None).
Proof.
  destruct s as [its pend sd st rp cp d sc am act]. unfold Idle. run.
  split; [|split; [|split]]; intros H; zcases; simpl; try lia; done.
Qed.

(** At step 3 the pending list is committed; at step 5 the cycle ends. *)
Lemma advance_spec_witness :
  let s3 := Nat.iter 2 advance (toggle 1 initialState) in
  let s5 := advance (advance s3) in
  step (advance s3) = 4
  ∧ items (advance s3) = Item.mk 1 "Apple" true :: tail initialItems
  ∧ pendingItems (advance s3) = None
  ∧ items (advance (advance s3)) = items (advance s3)
  ∧ advance s5 = reset s5.
Proof.
  intros s3 s5.
  destruct (advance_spec s3) as (H1 & H2 & _).
  destruct (advance_spec (advance s3)) as (_ & _ & H3 & _).
  destruct (advance_spec s5) as (_ & _ & _ & H4).
  split; [apply H1; vm_compute; discriminate|].
  destruct H2 as [H2 H2']; [reflexivity|].
  split; [exact H2|]. split; [exact H2'|].
  split; [apply H3; vm_compute; discriminate|].
  apply H4. vm_compute. reflexivity.
Defined.

(** C3.  [retreat] sets [step] to [max(1, step - 1)], which is at least 1,
    so the result is never [Idle]; and when it goes from a step of 4 or
    more to a step of 3 or less, [items] becomes [diff.prev] and
    [pendingItems] becomes [diff.next]. *)
Theorem retreat_spec (s : State) :
  step (retreat s) = Z.max 1 (step s - 1)
  ∧ 1 ≤ step (retreat s)
  ∧ ¬ Idle (retreat s)
  ∧ (4 ≤ step s → step (retreat s) ≤ 3 →
       items (retreat s) = Diff.prev (diff s)
       ∧ pendingItems (retreat s) = Some (Diff.next (diff s))).
Proof.
  unfold retreat, call. rewrite step_previousStep.
  split; [done|]. split; [lia|]. split.
  - unfold Idle. rewrite step_previousStep. lia.
  - destruct s as [its pend sd st rp cp d sc am act]. run.
    intros H4 H3. by zcases; try lia.
Qed.

(** Going back from step 4 undoes the commit. *)
Lemma retreat_spec_witness :
  let s4 := Nat.iter 3 advance (toggle 1 initialState) in
  items (retreat s4) = initialItems
  ∧ pendingItems (retreat s4)
    = Some (Item.mk 1 "Apple" true :: tail initialItems).
Proof.
  intros s4. destruct (retreat_spec s4) as (_ & _ & _ & H).
  apply H; vm_compute; discriminate.
Defined.

(** C4.  While [isProcessActive] is true, [toggle], [add] and [remove]
    return the state they were given: [items] and every cell of the
    playback state are unchanged, and nothing is raised (the handlers are
    total).  While it is false each of them is a call of [start].  Hence,
    in a state where [active == false ⇔ step == 0], a mutation that changes
    anything, that is, one that called [start], ran in [Idle]. *)
Theorem mutation_while_active_noop (s : State) :
  (isProcessActive s = true →
     ∀ id dateNow,
       toggle id s = s ∧ add dateNow s = s ∧ remove id s = s)
  ∧ (isProcessActive s = false →
     ∀ id dateNow,
       (∃ cs, toggle id s = start cs s) ∧ (∃ cs, add dateNow s = start cs s)
       ∧ (∃ cs, remove id s = start cs s))
  ∧ (activeIffStep s →
     ∀ id dateNow,
       (toggle id s ≠ s → Idle s) ∧ (add dateNow s ≠ s → Idle s)
       ∧ (remove id s ≠ s → Idle s)).
Proof.
  split; [|split].
  - intros H id dateNow.
    by rewrite toggleItem_active, addItem_active, removeItem_active.
  - intros H id dateNow.
    split; [|split];
      auto using toggleItem_idle, addItem_idle, removeItem_idle.
  - intros Hinv id dateNow. unfold Idle.
    destruct (isProcessActive s) eqn:Hact.
    + rewrite toggleItem_active, addItem_active, removeItem_active by done.
      by repeat split.
    + assert (step s = 0) by by apply Hinv. by repeat split.
Qed.

(** After [toggle 1] the process is active and further mutations are
    ignored; the toggle itself ran in [Idle]. *)
Lemma mutation_while_active_noop_witness :
  let s1 := toggle 1 initialState in
  (toggle 2 s1 = s1 ∧ add 1700000000000 s1 = s1 ∧ remove 2 s1 = s1)
  ∧ (∃ cs, toggle 1 initialState = start cs initialState)
  ∧ Idle initialState.
Proof.
  intros s1.
  destruct (mutation_while_active_noop s1) as (Hactive & _ & _).
  destruct (mutation_while_active_noop initialState) as (_ & Hidle & Hchg).
  split; [apply Hactive; reflexivity|].
  split; [apply (Hidle eq_refl 1 0)|].
  assert (Hinv : activeIffStep initialState) by (by split).
  apply (Hchg Hinv 1 0). discriminate.
Defined.

(** C5.  [start cs] followed by five [advance]s leaves [items] equal to
    [cs.next] and the controller in [Idle], with [pendingItems] cleared;
    this holds from every state, [Idle] in particular. *)
Theorem full_cycle (cs : Diff) (s : State) :
  let s' := Nat.iter 5 advance (start cs s) in
  items s' = Diff.next cs ∧ Idle s' ∧ pendingItems s' = None.
Proof. destruct s. by vm_compute. Qed.

(** The steps the cycle goes through. *)
Lemma cycle_steps (cs : Diff) (s : State) :
  (λ k, step (Nat.iter k advance (start cs s))) <$> [0; 1; 2; 3; 4; 5]%nat
  = [1; 2; 3; 4; 5; 0].
Proof. destruct s. by vm_compute. Qed.

(** C6.  When [cs.prev] is the current list, [start cs], three [advance]s
    and three [retreat]s give back the list there was before [start], with
    [step = 1] and [pendingItems = cs.next]. *)
Theorem round_trip (cs : Diff) (s : State) :
  Diff.prev cs = items s →
  let s' := Nat.iter 3 retreat (Nat.iter 3 advance (start cs s)) in
  items s' = items s ∧ step s' = 1 ∧ pendingItems s' = Some (Diff.next cs).
Proof. destruct s, cs. simpl. intros ->. by vm_compute. Qed.

Lemma round_trip_witness :
  let cs := Diff.mk initialItems [] [1; 2; 3] in
  let s' :=
    Nat.iter 3 retreat (Nat.iter 3 advance (start cs initialState)) in
  items s' = initialItems ∧ step s' = 1 ∧ pendingItems s' = Some [].
Proof.
  intros cs. apply (round_trip cs initialState). reflexivity.
Defined.

(** The commit is visible in between: after the three [advance]s the list
    is [cs.next]. *)
Lemma commit_midpoint (cs : Diff) (s : State) :
  let s4 := Nat.iter 3 advance (start cs s) in
  items s4 = Diff.next cs ∧ step s4 = 4 ∧ pendingItems s4 = None.
Proof. destruct s. by vm_compute. Qed.

(** C8.  [reset] returns to [Idle] from every state and clears
    [pendingItems]; it leaves the stored diff ([prev], [next] and
    [changedIds]) and [items] as they were. *)
Theorem reset_spec (s : State) :
  Idle (reset s) ∧ pendingItems (reset s) = None
  ∧ diff (reset s) = diff s ∧ items (reset s) = items s.
Proof. by destruct s. Qed.

(** ** The invariant [active == false ⇔ step == 0] *)

Lemma stepInRange_preserved (s : State) :
  stepInRange s →
  (∀ id, stepInRange (toggle id s)) ∧ (∀ dateNow, stepInRange (add dateNow s))
  ∧ (∀ id, stepInRange (remove id s)) ∧ stepInRange (reset s)
  ∧ (∀ v, stepInRange (setIsAutoMode v s))
  ∧ stepInRange (advance s) ∧ stepInRange (retreat s).
Proof.
  unfold stepInRange. destruct s as [its pend sd st rp cp d sc am act]. run.
  intros H. repeat split; intros; destruct act; zcases; simpl; lia.
Qed.

(** The operations that keep the invariant, and when. *)
Lemma activeIffStep_preserved (s : State) :
  activeIffStep s → stepInRange s →
  (∀ id, activeIffStep (toggle id s))
  ∧ (∀ dateNow, activeIffStep (add dateNow s))
  ∧ (∀ id, activeIffStep (remove id s))
  ∧ activeIffStep (reset s)
  ∧ (∀ v, activeIffStep (setIsAutoMode v s))
  ∧ activeIffStep (toggleAutoMode s)
  ∧ (isProcessActive s = true →
       activeIffStep (advance s) ∧ activeIffStep (retreat s)).
Proof.
  unfold activeIffStep, stepInRange.
  destruct s as [its pend sd st rp cp d sc am act]. run.
  intros Hinv Hrange.
  split; [|split; [|split; [|split; [|split; [|split]]]]]; intros;
    destruct act; zcases; simpl;
    repeat match goal with |- _ ∧ _ => split end;
    try (split; intros; first [lia | done]).
  all: split; intros; first [done | by apply Hinv].
Qed.

(** ** Mutations that name an absent id *)

Section AbsentId.
Implicit Types (l : list Item) (id : Z).

Lemma toggle_absent id l :
  id ∉ ids l →
  (λ item, if Item.id item =? id
           then Item.mk (Item.id item) (Item.name item)
                  (negb (Item.selected item))
           else item) <$> l = l.
Proof.
  unfold ids. induction l as [|x l IH]; [done|]. csimpl.
  intros [Hx Hl]%not_elem_of_cons. rewrite IH by done.
  destruct (Z.eqb_spec (Item.id x) id); congruence.
Qed.

Lemma remove_absent id l :
  id ∉ ids l → filter (λ item, Item.id item ≠ id) l = l.
Proof.
  unfold ids. induction l as [|x l IH]; [done|]. csimpl.
  intros [Hx Hl]%not_elem_of_cons.
  rewrite filter_cons_True by congruence. by rewrite IH.
Qed.

(** A list with unique ids has an empty diff with itself. *)
Lemma getChangedIds_same l : NoDup (ids l) → getChangedIds l l = [].
Proof.
  intros Hnd. apply elem_of_nil_inv. intros i.
  rewrite elem_of_getChangedIds by done.
  intros [[? ?]|[(p & n & Hp & Hn & Hpi & Hni & Hsel)|[? ?]]]; [done| |done].
  apply Hsel. f_equal.
  apply (Map_new_Some l i p Hnd Hp) in Hpi.
  apply (Map_new_Some l i n Hnd Hn) in Hni. congruence.
Qed.
End AbsentId.

(** Without unique ids the diff of a list with itself need not be empty:
    the map keeps the last entry of an id. *)
Example getChangedIds_same_duplicate_id :
  let l := [Item.mk 1 "Apple" false; Item.mk 1 "Apple" true] in
  getChangedIds l l = [1].
Proof. vm_compute. reflexivity. Qed.

(** C10.  When [id] is the id of no item and the process is not active,
    [toggle id] and [remove id] both start a cycle ([step = 1], active)
    whose diff has the current list as [prev] and as [next]; the list
    having unique ids, its [changedIds] is empty. *)
Theorem absent_id_starts_identity_cycle (s : State) (id : Z) :
  id ∉ ids (items s) → isProcessActive s = false →
  ∀ op, op = toggle id ∨ op = remove id →
    step (op s) = 1 ∧ isProcessActive (op s) = true
    ∧ Diff.prev (diff (op s)) = items s
    ∧ Diff.next (diff (op s)) = items s
    ∧ (NoDup (ids (items s)) → Diff.changedIds (diff (op s)) = [])
    ∧ (NoDup (ids (items s)) →
       op s = start (Diff.mk (items s) (items s) []) s).
Proof.
  intros Hid Hact op [-> | ->].
  - unfold toggle, call, toggleItem, start. rewrite Hact. cbv zeta.
    rewrite toggle_absent by done. repeat split; try done.
    + simpl. apply getChangedIds_same.
    + intros Hnd. by rewrite getChangedIds_same.
  - unfold remove, call, removeItem, start. rewrite Hact. cbv zeta.
    rewrite remove_absent by done. repeat split; try done.
    + simpl. apply getChangedIds_same.
    + intros Hnd. by rewrite getChangedIds_same.
Qed.

Lemma absent_id_starts_identity_cycle_witness :
  let s := toggle 7 initialState in
  step s = 1 ∧ isProcessActive s = true
  ∧ Diff.prev (diff s) = initialItems ∧ Diff.next (diff s) = initialItems
  ∧ Diff.changedIds (diff s) = []
  ∧ remove 7 initialState = s.
Proof.
  assert (Hid : 7 ∉ ids (items initialState))
    by (refine (bool_decide_unpack (_ ∉ _) _); vm_compute; exact I).
  assert (Hnd : NoDup (ids (items initialState)))
    by (refine (bool_decide_unpack (NoDup _) _); vm_compute; exact I).
  destruct (absent_id_starts_identity_cycle initialState 7 Hid eq_refl
              (toggle 7) (or_introl eq_refl))
    as (H1 & H2 & H3 & H4 & H5 & H6).
  destruct (absent_id_starts_identity_cycle initialState 7 Hid eq_refl
              (remove 7) (or_intror eq_refl))
    as (_ & _ & _ & _ & _ & H7).
  intros s. split; [exact H1|]. split; [exact H2|]. split; [exact H3|].
  split; [exact H4|]. split; [exact (H5 Hnd)|].
  transitivity (start (Diff.mk initialItems initialItems []) initialState);
    [exact (H7 Hnd)|symmetry; exact (H6 Hnd)].
Defined.

(** ** Effects and the timer *)

Section Effects.
Implicit Types (c : Component) (s old env : State) (e : Event)
  (tm : Timer).

(** [nextStep] reads nothing but [pendingItems] from its closure. *)
Lemma nextStep_env env1 env2 s :
  pendingItems env1 = pendingItems env2 → nextStep env1 s = nextStep env2 s.
Proof. unfold nextStep. by intros ->. Qed.

Lemma step_nextStep_range env s :
  stepInRange s → stepInRange (nextStep env s).
Proof.
  unfold stepInRange. rewrite step_nextStep. unfold MAX_STEP.
  zcases; lia.
Qed.


(** The overflow effect is silent on a state whose step is in range. *)
Lemma overflowEffect_range old s :
  stepInRange s → overflowEffect old s = false.
Proof.
  unfold stepInRange, overflowEffect, MAX_STEP. intros H.
  rewrite Z.gtb_ltb. destruct (Z.ltb_spec 5 (step s)); [lia|].
  apply andb_false_r.
Qed.

Lemma afterRender_range old c :
  stepInRange (state c) →
  afterRender old c =
  mkComponent (now c) (state c)
    (runAutoEffect old (state c) (now c) (timer c)).
Proof. intros H. unfold afterRender. by rewrite overflowEffect_range. Qed.

(** When a dependency changed the effect is run again. *)
Lemma runAutoEffect_changed old s t pending :
  autoDeps old ≠ autoDeps s → runAutoEffect old s t pending = autoEffect t s.
Proof. intros H. unfold runAutoEffect. by rewrite bool_decide_eq_false_2. Qed.

Lemma runAutoEffect_same old s t pending :
  autoDeps old = autoDeps s → runAutoEffect old s t pending = pending.
Proof. intros H. unfold runAutoEffect. by rewrite bool_decide_eq_true_2. Qed.

Lemma autoEffect_window t s :
  isAutoMode s = true → activeWindow s →
  autoEffect t s = Some (mkTimer (t + AUTO_DELAY) s).
Proof.
  unfold activeWindow, autoEffect, MAX_STEP. intros -> [-> H]. simpl.
  rewrite Z.gtb_ltb.
  destruct (Z.eqb_spec (step s) 0), (Z.ltb_spec 5 (step s)); try lia; done.
Qed.

Lemma autoEffect_outside t s :
  stepInRange s → ¬ (isAutoMode s = true ∧ activeWindow s) →
  autoEffect t s = None.
Proof.
  unfold activeWindow, autoEffect, stepInRange, MAX_STEP. intros Hr H.
  destruct (isProcessActive s), (isAutoMode s); simpl; try done.
  rewrite Z.gtb_ltb.
  destruct (Z.eqb_spec (step s) 0), (Z.ltb_spec 5 (step s));
    try done. exfalso. apply H. split; [done|]. split; [done|lia].
Qed.

Lemma autoEffect_Some t s tm :
  autoEffect t s = Some tm →
  isProcessActive s = true ∧ isAutoMode s = true
  ∧ tm = mkTimer (t + AUTO_DELAY) s.
Proof.
  unfold autoEffect.
  destruct (isProcessActive s), (isAutoMode s); simpl; try done.
  destruct (_ || _); [done|]. by intros [= <-].
Qed.

Lemma onClick_range e s : stepInRange s → stepInRange (onClick e s).
Proof.
  intros Hr. destruct (stepInRange_preserved s Hr)
    as (Htog & Hadd & Hrem & Hreset & Hmode & Hadv & Hret).
  destruct e; simpl;
    [apply Htog|apply Hadd|apply Hrem|apply Hmode|apply Hadv|apply Hret
    |apply Hreset|exact Hr|exact Hr].
Qed.

Lemma now_afterRender old c : now (afterRender old c) = now c.
Proof. unfold afterRender. by destruct (overflowEffect _ _). Qed.

(** Time passes unit by unit. *)
Lemma elapse_0 c : elapse 0 c = c.
Proof. reflexivity. Qed.

Lemma elapse_succ d c : elapse (N.succ d) c = tick (elapse d c).
Proof. unfold elapse. by rewrite N.iter_succ. Qed.



Lemma now_elapse d c : now (elapse d c) = now c + Z.of_N d.
Proof.
  induction d as [|d IH] using N.peano_ind.
  - rewrite elapse_0. lia.
  - rewrite elapse_succ. unfold tick, fire.
    destruct (timer (elapse d c)) as [tm|];
      [destruct (due tm <=? _)|]; rewrite ?now_afterRender; simpl; lia.
Qed.

(** A unit of time either leaves state and timer alone or fires the
    timer, which is then due. *)
Lemma tick_cases c :
  (state (tick c) = state c ∧ timer (tick c) = timer c
   ∧ ∀ tm, timer c = Some tm → now c + 1 < due tm)
  ∨ ∃ tm, timer c = Some tm ∧ due tm ≤ now c + 1
          ∧ tick c = afterRender (state c)
                       (mkComponent (now c + 1)
                          (nextStep (callback tm) (state c)) None).
Proof.
  unfold tick, fire. destruct (timer c) as [tm|] eqn:Htm; [|by left].
  destruct (Z.leb_spec (due tm) (now c + 1)); [right; by exists tm|left].
  split; [done|]. split; [done|]. by intros ? [= <-].
Qed.

(** With no timer pending, time passes and nothing else happens. *)
Lemma elapse_no_timer d c :
  timer c = None → elapse d c = mkComponent (now c + Z.of_N d) (state c) None.
Proof.
  intros Hnone. induction d as [|d IH] using N.peano_ind.
  - rewrite elapse_0, Z.add_0_r. destruct c; simpl in *. by subst.
  - rewrite elapse_succ, IH. unfold tick. cbn [now state timer].
    f_equal. lia.
Qed.

(** Before the timer is due, time passes and nothing else happens. *)
Lemma elapse_before d c tm :
  timer c = Some tm → now c + Z.of_N d < due tm →
  elapse d c = mkComponent (now c + Z.of_N d) (state c) (Some tm).
Proof.
  intros Htm. induction d as [|d IH] using N.peano_ind; intros Hd.
  - rewrite elapse_0, Z.add_0_r. destruct c; simpl in *. by subst.
  - rewrite elapse_succ, IH by lia. unfold tick. cbn [now state timer].
    destruct (Z.leb_spec (due tm) (now c + Z.of_N d + 1)); [lia|].
    f_equal. lia.
Qed.

(** When the time that passes ends at the due time, the timer fires
    there. *)
Lemma elapse_until_due d c tm :
  timer c = Some tm → now c < due tm → now c + Z.of_N d = due tm →
  elapse d c = fire tm (mkComponent (due tm) (state c) (Some tm)).
Proof.
  intros Htm Hnow Hd.
  destruct (N.zero_or_succ d) as [->|[d' ->]]; [lia|].
  rewrite elapse_succ, (elapse_before d' c tm) by (done || lia).
  unfold tick. cbn [now state timer].
  destruct (Z.leb_spec (due tm) (now c + Z.of_N d' + 1)); [|lia].
  by replace (now c + Z.of_N d' + 1) with (due tm) by lia.
Qed.
End Effects.

(** ** What every reachable component satisfies *)

Section Reachable.
Implicit Types (c : Component) (s old env : State) (e : Event)
  (tm : Timer).

Lemma activeIffStep_onClick e s :
  activeIffStep s → stepInRange s → enabled e s = true →
  activeIffStep (onClick e s).
Proof.
  intros Hinv Hr. destruct (activeIffStep_preserved s Hinv Hr)
    as (Htog & Hadd & Hrem & Hreset & _ & Hmode & Hstep).
  destruct e; simpl; intros Hen;
    [apply Htog|apply Hadd|apply Hrem|apply Hmode| | |apply Hreset
    |exact Hinv|exact Hinv];
    apply Hstep; by destruct (isProcessActive s).
Qed.

Lemma activeIffStep_nextStep env s :
  activeIffStep s → stepInRange s → isProcessActive s = true →
  activeIffStep (nextStep env s).
Proof.
  unfold activeIffStep, stepInRange.
  rewrite isProcessActive_nextStep, step_nextStep. unfold MAX_STEP.
  intros Hinv Hr ->. zcases; split; intros; first [lia | done].
Qed.

Lemma renderPending_nextStep env s :
  activeIffStep s → stepInRange s → renderPending s →
  isProcessActive s = true → renderPending (nextStep env s).
Proof.
  unfold activeIffStep, stepInRange, renderPending.
  destruct s as [its pend sd st rp cp d sc am act]. run.
  intros Hinv Hr Hp ->. zcases; simpl; intros; first [lia | apply Hp].
  assert (st ≠ 0) by (intros Hst; by apply Hinv in Hst). lia.
Qed.

Lemma renderPending_onClick e s :
  activeIffStep s → stepInRange s → renderPending s →
  enabled e s = true → renderPending (onClick e s).
Proof.
  intros Hinv Hr Hp Hen.
  destruct e; try exact Hp;
    try (simpl in *; unfold call; apply renderPending_nextStep; try done;
         by destruct (isProcessActive s)).
  all: revert Hinv Hr Hp Hen;
    unfold activeIffStep, stepInRange, renderPending;
    destruct s as [its pend sd st rp cp d sc am act]; simpl; run;
    intros Hinv Hr Hp Hen; destruct act, am; simpl in *;
    zcases; simpl; intros; try done; try lia; try (apply Hp; lia).
Qed.

(** A click that changes no dependency of the auto-mode effect while the
    process is active leaves the pending list alone. *)
Lemma pendingItems_onClick e s :
  isProcessActive s = true → autoDeps s = autoDeps (onClick e s) →
  pendingItems (onClick e s) = pendingItems s.
Proof.
  unfold autoDeps. destruct s as [its pend sd st rp cp d sc am act].
  simpl. intros ->. destruct e; simpl; run; try done.
  all: zcases; simpl; intros [=]; try lia; done.
Qed.

Lemma consistent_mount t : consistent (mount t).
Proof.
  split; simpl; try done. unfold renderPending. simpl. lia.
Qed.

(** The effects after a state change keep a consistent component
    consistent, given that a timer left pending still fits. *)
Lemma consistent_afterRender old c2 :
  activeIffStep (state c2) → stepInRange (state c2) →
  renderPending (state c2) →
  (autoDeps old = autoDeps (state c2) →
   ∀ tm, timer c2 = Some tm →
     isProcessActive (state c2) = true ∧ isAutoMode (state c2) = true
     ∧ pendingItems (callback tm) = pendingItems (state c2)) →
  consistent (afterRender old c2).
Proof.
  intros Hinv2 Hr2 Hp2 Htm2. rewrite afterRender_range by done.
  split; simpl; try done. intros tm. unfold runAutoEffect.
  case_bool_decide as Hdeps; [by apply Htm2|].
  intros (? & ? & ->)%autoEffect_Some. done.
Qed.

Lemma consistent_click e c :
  consistent c → enabled e (state c) = true →
  consistent (afterRender (state c)
                (mkComponent (now c) (onClick e (state c)) (timer c))).
Proof.
  intros [Hinv Hr Hp Htm] Hen.
  apply consistent_afterRender; cbn [state timer now].
  - by apply activeIffStep_onClick.
  - by apply onClick_range.
  - by apply renderPending_onClick.
  - intros Hdeps tm Hsome.
    destruct (Htm tm Hsome) as (Hact & Ham & Hpend).
    rewrite pendingItems_onClick by done.
    unfold autoDeps in Hdeps. injection Hdeps as _ Hd2 Hd3.
    rewrite <- Hd2, <- Hd3. done.
Qed.

Lemma consistent_tick c : consistent c → consistent (tick c).
Proof.
  intros Hc. pose proof Hc as [Hinv Hr Hp Htm].
  destruct (tick_cases c) as [(Hs & Ht & _)|(tm & Htimer & _ & ->)].
  - split; rewrite ?Hs, ?Ht; done.
  - destruct (Htm tm Htimer) as (Hact & Ham & Hpend).
    apply consistent_afterRender; cbn [state timer now];
      [by apply activeIffStep_nextStep|by apply step_nextStep_range
      |by apply renderPending_nextStep|done].
Qed.

Lemma consistent_elapse d c : consistent c → consistent (elapse d c).
Proof.
  intros Hc. induction d as [|d IH] using N.peano_ind; [done|].
  rewrite elapse_succ. by apply consistent_tick.
Qed.

Lemma consistent_handle e c : consistent c → consistent (handle e c).
Proof.
  intros Hc.
  assert (Hclick : ∀ e',
    consistent (if enabled e' (state c)
                then afterRender (state c)
                       (mkComponent (now c) (onClick e' (state c))
                          (timer c))
                else c)).
  { intros e'. destruct (enabled e' (state c)) eqn:Hen; [|done].
    by apply consistent_click. }
  destruct e; try apply Hclick. by apply consistent_elapse.
Qed.

Theorem reachable_consistent c : reachable c → consistent c.
Proof.
  induction 1 as [t|e c _ IH];
    [apply consistent_mount|by apply consistent_handle].
Qed.
(** One unit of time is an event. *)
Lemma reachable_tick c : reachable c → reachable (tick c).
Proof. intros H. apply (reachable_handle (Elapse 1) c H). Qed.

(** To prove a property of every reachable component it is enough to
    follow the clicks and the units of time. *)
Lemma reachable_atomic_ind (P : Component → Prop) :
  (∀ t, P (mount t)) →
  (∀ e c, (∀ d, e ≠ Elapse d) → reachable c → P c → P (handle e c)) →
  (∀ c, reachable c → P c → P (tick c)) →
  ∀ c, reachable c → P c.
Proof.
  intros Hmount Hclick Htick c Hreach.
  induction Hreach as [t|e c Hreach IH]; [apply Hmount|].
  destruct e; try (by apply Hclick).
  cbn [handle].
  assert (reachable (elapse d c) ∧ P (elapse d c)) as [_ ?]; [|done].
  induction d as [|d [IHr IHP]] using N.peano_ind; [done|].
  rewrite elapse_succ. split; [by apply reachable_tick|by apply Htick].
Qed.

End Reachable.

(** ** Auto mode *)

Section AutoMode.
Implicit Types (c : Component) (s : State) (e : Event) (tm : Timer)
  (cs : Diff).





End AutoMode.



(** ** Consequences for the mounted component *)

(** On a reachable component the pending list is there when step 3 is left:
    [advance] commits [diff.next]. *)
Corollary reachable_commit (c : Component) :
  reachable c → step (state c) = 3 →
  items (advance (state c)) = Diff.next (diff (state c))
  ∧ step (advance (state c)) = 4.
Proof.
  intros [_ _ Hp _]%reachable_consistent H3.
  unfold renderPending in Hp. rewrite H3 in Hp.
  destruct (state c) as [its pend sd st rp cp d sc am act].
  simpl in *. subst st. rewrite Hp by lia. by vm_compute.
Qed.

(** No sequence of clicks and delays breaks the invariant: the buttons for
    the next and the previous step are disabled in [Idle]. *)
Corollary reachable_activeIffStep (c : Component) :
  reachable c → activeIffStep (state c) ∧ stepInRange (state c).
Proof. by intros [? ? _ _]%reachable_consistent. Qed.

(** C7.  The invariant [active == false ⇔ step == 0] holds in the initial
    state, and on every component that the page reaches every event keeps
    it: the clicks that call [toggle], [add], [remove], [advance],
    [retreat], [reset] and the mode switch, and the passing of time, in
    which the timer calls [advance].  So does each operation where the
    page calls it: the handler of every enabled button, the [nextStep] of
    a pending timer, and [toggle], [add], [remove], [reset] and the
    setting of the mode with any argument. *)
Theorem invariant_on_page :
  activeIffStep initialState
  ∧ (∀ t, activeIffStep (state (mount t)))
  ∧ ∀ c, reachable c →
      activeIffStep (state c)
      ∧ (∀ e, activeIffStep (state (handle e c)))
      ∧ (∀ e, enabled e (state c) = true →
           activeIffStep (onClick e (state c)))
      ∧ (∀ tm, timer c = Some tm →
           activeIffStep (nextStep (callback tm) (state c)))
      ∧ (∀ id dateNow v,
           activeIffStep (toggle id (state c))
           ∧ activeIffStep (add dateNow (state c))
           ∧ activeIffStep (remove id (state c))
           ∧ activeIffStep (reset (state c))
           ∧ activeIffStep (setIsAutoMode v (state c))).
Proof.
  split; [by split|]. split; [by split|]. intros c Hreach.
  pose proof (reachable_consistent c Hreach) as [Hinv Hr _ Htm].
  split; [done|]. split; [|split; [|split]].
  - intros e.
    by pose proof (reachable_consistent _ (reachable_handle e c Hreach))
      as [? _ _ _].
  - intros e Hen. by apply activeIffStep_onClick.
  - intros tm Htimer. destruct (Htm tm Htimer) as (Hact & _ & _).
    by apply activeIffStep_nextStep.
  - intros id dateNow v.
    destruct (activeIffStep_preserved (state c) Hinv Hr)
      as (H1 & H2 & H3 & H4 & H5 & _).
    by auto.
Qed.

(** In manual mode, after a click on "Toggle Apple": the Next button, the
    Previous button and the passing of time. *)
Lemma invariant_on_page_witness :
  let c := handle ClickToggleApple (handle ClickMode (mount 0)) in
  activeIffStep (state c)
  ∧ activeIffStep (state (handle ClickNext c))
  ∧ activeIffStep (state (handle ClickPrevious c))
  ∧ activeIffStep (state (handle (Elapse 800) c)).
Proof.
  intros c.
  destruct invariant_on_page as (_ & _ & H).
  destruct (H c) as (H1 & H2 & _).
  - do 2 apply reachable_handle. apply reachable_mount.
  - split; [exact H1|]. split; [exact (H2 ClickNext)|].
    split; [exact (H2 ClickPrevious)|exact (H2 (Elapse 800))].
Defined.

(** The handlers [nextStep] and [previousStep] have no guard of their own:
    the invariant rests on the page calling them while the process is
    active only, which the [disabled] attributes and the condition of the
    timer see to; the clicks do nothing in [Idle]. *)
Example step_buttons_in_idle :
  handle ClickNext (mount 0) = mount 0
  ∧ handle ClickPrevious (mount 0) = mount 0
  ∧ state (handle (Elapse 100000) (mount 0)) = initialState
  ∧ step (advance initialState) = 1
  ∧ isProcessActive (advance initialState) = false.
Proof. by vm_compute. Qed.

(** An interval gives the same component however it is cut: 1700 time
    units after the click on "Toggle Apple" the timer has fired at 800 and
    at 1600, and is due at 2400; after a long time the cycle is over. *)
Example elapse_however_cut :
  let c := handle ClickToggleApple (mount 0) in
  handle (Elapse 1700) c
  = handle (Elapse 100) (handle (Elapse 800) (handle (Elapse 800) c))
  ∧ step (state (handle (Elapse 1700) c)) = 3
  ∧ (due <$> timer (handle (Elapse 1700) c)) = Some 2400
  ∧ now (handle (Elapse 1700) c) = 1700
  ∧ step (state (handle (Elapse 100000) c)) = 0
  ∧ timer (handle (Elapse 100000) c) = None
  ∧ items (state (handle (Elapse 100000) c))
    = Item.mk 1 "Apple" true :: tail initialItems.
Proof. by vm_compute. Qed.

(** ** The scenarios of the page, run *)

Example scenario_auto_toggle :
  let c :=
    Nat.iter 5 (handle (Elapse 800)) (handle ClickToggleApple (mount 0)) in
  now c = 4000 ∧ step (state c) = 0 ∧ isProcessActive (state c) = false
  ∧ items (state c) = Item.mk 1 "Apple" true :: tail initialItems
  ∧ Diff.changedIds (diff (state c)) = [1]
  ∧ timer c = None.
Proof. by vm_compute. Qed.

Example scenario_manual_remove :
  let c0 := handle ClickRemoveLast (handle ClickMode (mount 0)) in
  let c3 := Nat.iter 3 (handle ClickNext) c0 in
  let c2 := handle ClickPrevious c3 in
  timer c0 = None ∧ step (state c0) = 1 ∧ items (state c0) = initialItems
  ∧ Diff.changedIds (diff (state c0)) = [3]
  ∧ step (state c3) = 4 ∧ ids (items (state c3)) = [1; 2]
  ∧ step (state c2) = 3 ∧ items (state c2) = initialItems
  ∧ state (handle (Elapse 5000) c2) = state c2.
Proof. by vm_compute. Qed.

Example scenario_add :
  let s := add 1700000000000 initialState in
  (Item.name <$> Diff.next (diff s))
    = ["Apple"; "Banana"; "Cherry"; "Item 4"]%string
  ∧ Diff.changedIds (diff s) = [1700000000000]
  ∧ items s = initialItems
  ∧ ids (items (Nat.iter 3 advance s)) = [1; 2; 3; 1700000000000].
Proof. by vm_compute. Qed.

(** A click during the process changes nothing, and the buttons of the
    step control do nothing in [Idle] or in auto mode. *)
Example scenario_disabled :
  let c1 := handle ClickToggleApple (mount 0) in
  handle ClickToggleApple c1 = c1 ∧ handle (ClickAdd 9) c1 = c1
  ∧ handle ClickRemoveLast c1 = c1 ∧ handle ClickNext c1 = c1
  ∧ handle ClickNext (mount 0) = mount 0
  ∧ handle ClickPrevious (mount 0) = mount 0.
Proof. by vm_compute. Qed.

(** ** More on [getChangedIds] *)

Section GetChangedIdsMore.
Implicit Types (l prev next : list Item) (i : Z) (p n : Item)
  (m : gmap Z Item) (c : list Z).

(** Against an empty map every item is pushed. *)
Lemma foldl_pushAddedOrToggled_empty c l :
  foldl (pushAddedOrToggled ∅) c l = c ++ ids l.
Proof.
  revert c. induction l as [|x l IH]; intros c; simpl.
  - by rewrite app_nil_r.
  - rewrite IH. unfold pushAddedOrToggled. rewrite lookup_empty.
    by rewrite <- app_assoc.
Qed.

Lemma foldl_pushRemoved_empty c l :
  foldl (pushRemoved ∅) c l = c ++ ids l.
Proof.
  revert c. induction l as [|x l IH]; intros c; simpl.
  - by rewrite app_nil_r.
  - rewrite IH. unfold pushRemoved. rewrite lookup_empty.
    by rewrite <- app_assoc.
Qed.

(** Each loop appends, in order, some of the ids it runs over. *)
Lemma foldl_pushAddedOrToggled_sublist m c l :
  ∃ k : list Z, foldl (pushAddedOrToggled m) c l = c ++ k ∧ k `sublist_of` ids l.
Proof.
  revert c. induction l as [|x l IH]; intros c; simpl.
  - exists []. by rewrite app_nil_r.
  - destruct (IH (pushAddedOrToggled m c x)) as (k & -> & Hsub).
    unfold pushAddedOrToggled.
    destruct (m !! Item.id x) as [q|]; [destruct (negb _)|].
    + exists (Item.id x :: k). rewrite <- app_assoc.
      split; [done|by apply sublist_skip].
    + exists k. split; [done|by apply sublist_cons].
    + exists (Item.id x :: k). rewrite <- app_assoc.
      split; [done|by apply sublist_skip].
Qed.

Lemma foldl_pushRemoved_sublist m c l :
  ∃ k : list Z, foldl (pushRemoved m) c l = c ++ k ∧ k `sublist_of` ids l.
Proof.
  revert c. induction l as [|x l IH]; intros c; simpl.
  - exists []. by rewrite app_nil_r.
  - destruct (IH (pushRemoved m c x)) as (k & -> & Hsub).
    unfold pushRemoved. destruct (m !! Item.id x) as [q|].
    + exists k. split; [done|by apply sublist_cons].
    + exists (Item.id x :: k). rewrite <- app_assoc.
      split; [done|by apply sublist_skip].
Qed.

Lemma NoDup_getChangedIds prev next :
  NoDup (ids prev) → NoDup (ids next) → NoDup (getChangedIds prev next).
Proof.
  intros Hprev Hnext. unfold getChangedIds.
  apply NoDup_pushRemoved; [|done|].
  - apply NoDup_pushAddedOrToggled; [apply NoDup_nil_2|done|].
    intros i _. apply not_elem_of_nil.
  - intros i _ Hnone%Map_new_None.
    rewrite elem_of_pushAddedOrToggled.
    intros [[]%elem_of_nil|(n & Hn & <- & _)].
    apply Hnone. by apply list_elem_of_fmap_2.
Qed.

(** In a list with unique ids an id names one item. *)
Lemma same_id_same_item l p n :
  NoDup (ids l) → p ∈ l → n ∈ l → Item.id p = Item.id n → p = n.
Proof.
  intros Hnd Hp Hn Hid.
  pose proof (Map_new_Some l (Item.id n) p Hnd Hp Hid) as H1.
  pose proof (Map_new_Some l (Item.id n) n Hnd Hn eq_refl) as H2.
  congruence.
Qed.

(** A duplicate-free list whose only possible element is [x] and that
    holds [x]. *)
Lemma singleton_of_NoDup (x : Z) (k : list Z) :
  NoDup k → (∀ i, i ∈ k ↔ i = x) → k = [x].
Proof.
  intros Hnd Hiff. destruct k as [|a k].
  - assert (x ∈ @nil Z) as []%elem_of_nil by by apply Hiff.
  - assert (a = x) as -> by (apply Hiff; left).
    destruct k as [|b k]; [done|].
    assert (b = x) as -> by (apply Hiff; right; left).
    apply NoDup_cons in Hnd as [Hx _]. exfalso. apply Hx. left.
Qed.
End GetChangedIdsMore.

(** X1.  With nothing before, every id of [next] is reported, in order;
    with nothing after, every id of [prev]. *)
Theorem getChangedIds_empty (l : list Item) :
  getChangedIds [] l = ids l ∧ getChangedIds l [] = ids l.
Proof.
  unfold getChangedIds, entries, Map_new. cbn [fmap list_fmap foldl].
  split.
  - by rewrite foldl_pushAddedOrToggled_empty.
  - by rewrite foldl_pushRemoved_empty.
Qed.

(** X2.  The result lists some ids of [next] in the order of [next],
    followed by some ids of [prev] in the order of [prev]; it is no longer
    than the two lists together.  No condition on the ids. *)
Theorem getChangedIds_shape (prev next : list Item) :
  (∃ l1 l2, getChangedIds prev next = l1 ++ l2
            ∧ l1 `sublist_of` ids next ∧ l2 `sublist_of` ids prev)
  ∧ (length (getChangedIds prev next) ≤ length next + length prev)%nat.
Proof.
  unfold getChangedIds. cbv zeta.
  destruct (foldl_pushAddedOrToggled_sublist (Map_new (entries prev)) [] next)
    as (l1 & -> & H1).
  destruct (foldl_pushRemoved_sublist (Map_new (entries next)) ([] ++ l1) prev)
    as (l2 & -> & H2).
  split; [by exists l1, l2|].
  apply sublist_length in H1, H2. unfold ids in *.
  rewrite length_fmap in H1, H2. rewrite length_app. simpl. lia.
Qed.

(** X3.  For lists with unique ids the diff is symmetric as a set: the ids
    reported from [prev] to [next] are those reported from [next] to
    [prev], added and removed changing places. *)
Theorem getChangedIds_symmetric (prev next : list Item) :
  NoDup (ids prev) → NoDup (ids next) →
  (∀ i, i ∈ getChangedIds prev next ↔ i ∈ getChangedIds next prev)
  ∧ (∀ i, added prev next i ↔ removed next prev i).
Proof.
  intros Hprev Hnext. split; [|done]. intros i.
  rewrite !elem_of_getChangedIds by done.
  unfold added, removed, toggled. split.
  - intros [?|[(p & n & ? & ? & ? & ? & ?)|?]];
      [by right; right|right; left; by exists n, p|by left].
  - intros [?|[(p & n & ? & ? & ? & ? & ?)|?]];
      [by right; right|right; left; by exists n, p|by left].
Qed.

Lemma getChangedIds_symmetric_witness :
  let prev := [Item.mk 1 "Apple" false; Item.mk 2 "Banana" false] in
  let next := [Item.mk 1 "Apple" true; Item.mk 3 "Cherry" false] in
  (∀ i, i ∈ getChangedIds prev next ↔ i ∈ getChangedIds next prev)
  ∧ (∀ i, added prev next i ↔ removed next prev i).
Proof.
  intros prev next.
  apply (getChangedIds_symmetric prev next);
    refine (bool_decide_unpack (NoDup _) _); vm_compute; exact I.
Defined.

(** X4.  Only [selected] is compared: a list with unique ids and the list
    obtained by changing its items in any way that keeps [id] and
    [selected] (the names, say) have an empty diff. *)
Theorem getChangedIds_ignores_names (f : Item → Item) (l : list Item) :
  (∀ item, Item.id (f item) = Item.id item
           ∧ Item.selected (f item) = Item.selected item) →
  NoDup (ids l) →
  getChangedIds l (f <$> l) = [] ∧ getChangedIds (f <$> l) l = [].
Proof.
  intros Hf Hnd.
  assert (Hids : ids (f <$> l) = ids l).
  { unfold ids. rewrite <- list_fmap_compose. apply list_fmap_ext.
    intros _ x _. apply Hf. }
  assert (Hone : ∀ i, i ∉ getChangedIds l (f <$> l)).
  { intros i. rewrite elem_of_getChangedIds by done.
    unfold added, removed, toggled. rewrite Hids.
    intros [[? ?]|[(p & n & Hp & Hn & Hpi & Hni & Hsel)|[? ?]]];
      [done| |done].
    apply list_elem_of_fmap in Hn as (q & -> & Hq).
    destruct (Hf q) as [Hfid Hfsel]. rewrite Hfid in Hni.
    assert (p = q) as -> by (apply (same_id_same_item l); congruence).
    congruence. }
  split; [by apply elem_of_nil_inv|].
  apply elem_of_nil_inv. intros i Hi. apply (Hone i).
  assert (NoDup (ids (f <$> l))) by by rewrite Hids.
  rewrite elem_of_getChangedIds in Hi |- * by done.
  unfold added, removed, toggled in *.
  destruct Hi as [?|[(p & n & ? & ? & ? & ? & ?)|?]];
    [by right; right|right; left; by exists n, p|by left].
Qed.

Lemma getChangedIds_ignores_names_witness :
  let rename item :=
    Item.mk (Item.id item) "Fruit" (Item.selected item) in
  getChangedIds initialItems (rename <$> initialItems) = []
  ∧ getChangedIds (rename <$> initialItems) initialItems = [].
Proof.
  intros rename. apply (getChangedIds_ignores_names rename initialItems).
  - intros item. split; reflexivity.
  - refine (bool_decide_unpack (NoDup _) _). vm_compute. exact I.
Defined.

(** ** What the three item actions put in the diff *)

Section ItemActions.
Implicit Types (l : list Item) (id i : Z) (s : State).

Lemma ids_flipSelected id l : ids (flipSelected id <$> l) = ids l.
Proof.
  unfold ids. rewrite <- list_fmap_compose. apply list_fmap_ext.
  intros _ x _. unfold flipSelected. simpl.
  by destruct (Item.id x =? id).
Qed.

Lemma elem_of_ids_filter id i l :
  i ∈ ids (filter (λ item, Item.id item ≠ id) l) ↔ i ∈ ids l ∧ i ≠ id.
Proof.
  unfold ids. rewrite !list_elem_of_fmap. split.
  - intros (x & -> & [Hx Hin]%list_elem_of_filter). split; [|done].
    by exists x.
  - intros [(x & -> & Hin) Hne]. exists x. split; [done|].
    by apply list_elem_of_filter.
Qed.

Lemma NoDup_ids_filter id l :
  NoDup (ids l) → NoDup (ids (filter (λ item, Item.id item ≠ id) l)).
Proof.
  intros Hnd. apply (sublist_NoDup _ (ids l)); [done|].
  unfold ids. apply fmap_sublist, sublist_filter.
Qed.

Lemma length_filter_remove id l :
  NoDup (ids l) → id ∈ ids l →
  length (filter (λ item, Item.id item ≠ id) l) = (length l - 1)%nat.
Proof.
  unfold ids. induction l as [|x l IH]; [by intros _ ?%elem_of_nil|].
  rewrite fmap_cons. intros [Hx Hl]%NoDup_cons Hin.
  apply elem_of_cons in Hin as [Hin|Hin].
  - subst id. rewrite filter_cons. case_decide; [done|].
    rewrite remove_absent by done. simpl. lia.
  - rewrite filter_cons. case_decide as Hne.
    + simpl. rewrite IH by done.
      destruct l; [by apply elem_of_nil in Hin|]. simpl. lia.
    + by subst id.
Qed.

(** The diff that each action hands to [startProcess]. *)
Lemma diff_toggle id s :
  isProcessActive s = false →
  diff (toggle id s)
  = Diff.mk (items s) (flipSelected id <$> items s)
      (getChangedIds (items s) (flipSelected id <$> items s)).
Proof. intros H. unfold toggle, call, toggleItem. by rewrite H. Qed.

Lemma diff_add dateNow s :
  isProcessActive s = false →
  let nextItems :=
    items s ++ [Item.mk dateNow (itemName (length (items s) + 1)) false] in
  diff (add dateNow s)
  = Diff.mk (items s) nextItems (getChangedIds (items s) nextItems).
Proof. intros H. unfold add, call, addItem. by rewrite H. Qed.

Lemma diff_remove id s :
  isProcessActive s = false →
  let nextItems := filter (λ item, Item.id item ≠ id) (items s) in
  diff (remove id s)
  = Diff.mk (items s) nextItems (getChangedIds (items s) nextItems).
Proof. intros H. unfold remove, call, removeItem. by rewrite H. Qed.

Lemma changedIds_toggle id l :
  NoDup (ids l) → id ∈ ids l →
  getChangedIds l (flipSelected id <$> l) = [id].
Proof.
  intros Hnd Hin. apply singleton_of_NoDup.
  { apply NoDup_getChangedIds; [done|by rewrite ids_flipSelected]. }
  intros i. rewrite elem_of_getChangedIds by done.
  unfold added, removed, toggled. rewrite ids_flipSelected. split.
  - intros [[? ?]|[(p & n & Hp & Hn & Hpi & Hni & Hsel)|[? ?]]];
      [done| |done].
    apply list_elem_of_fmap in Hn as (q & -> & Hq).
    assert (Item.id (flipSelected id q) = Item.id q) as Hfid
      by (unfold flipSelected; by destruct (Item.id q =? id)).
    assert (p = q) as -> by (apply (same_id_same_item l); congruence).
    unfold flipSelected in Hsel.
    destruct (Z.eqb_spec (Item.id q) id); [congruence|done].
  - intros ->. right; left.
    unfold ids in Hin. apply list_elem_of_fmap in Hin as (p & Hid & Hp).
    exists p, (flipSelected id p).
    split; [done|]. split; [by apply list_elem_of_fmap_2|].
    unfold flipSelected. rewrite <- Hid, Z.eqb_refl. simpl.
    repeat split; try done. by destruct (Item.selected p).
Qed.

Lemma changedIds_remove id l :
  NoDup (ids l) → id ∈ ids l →
  getChangedIds l (filter (λ item, Item.id item ≠ id) l) = [id].
Proof.
  intros Hnd Hin. apply singleton_of_NoDup.
  { apply NoDup_getChangedIds; [done|by apply NoDup_ids_filter]. }
  intros i. rewrite elem_of_getChangedIds by done.
  unfold added, removed, toggled. rewrite !elem_of_ids_filter. split.
  - intros [[[? ?] ?]|[(p & n & Hp & Hn & Hpi & Hni & Hsel)|[Hi Hni]]];
      [done| |].
    + apply list_elem_of_filter in Hn as [_ Hn].
      assert (p = n) as -> by (apply (same_id_same_item l); congruence).
      done.
    + destruct (decide (i = id)); [done|]. exfalso. by apply Hni.
  - intros ->. right; right. split; [done|]. by intros [_ ?].
Qed.

Lemma changedIds_add (new : Item) l :
  NoDup (ids l) → Item.id new ∉ ids l →
  getChangedIds l (l ++ [new]) = [Item.id new].
Proof.
  intros Hnd Hfresh.
  assert (Hids : ids (l ++ [new]) = ids l ++ [Item.id new])
    by (unfold ids; by rewrite fmap_app).
  apply singleton_of_NoDup.
  { apply NoDup_getChangedIds; [done|]. rewrite Hids.
    apply NoDup_app. split; [done|]. split; [|apply NoDup_singleton].
    by intros i Hi ->%list_elem_of_singleton. }
  intros i. rewrite elem_of_getChangedIds by done.
  unfold added, removed, toggled. rewrite Hids. split.
  - intros [[Hi Hni]|[(p & n & Hp & Hn & Hpi & Hni & Hsel)|[Hi Hni]]].
    + apply elem_of_app in Hi as [?|Hi]; [done|].
      by apply list_elem_of_singleton in Hi.
    + apply elem_of_app in Hn as [Hn|Hn%list_elem_of_singleton].
      * assert (p = n) as -> by (apply (same_id_same_item l); congruence).
        done.
      * by subst n.
    + exfalso. apply Hni, elem_of_app. by left.
  - intros ->. left. split; [|done]. apply elem_of_app. right. left.
Qed.
End ItemActions.

(** X5.  Toggling an id of the list (unique ids, process not active)
    starts a diff whose [prev] is the list, whose [next] has the same ids
    and names in the same order, the [selected] flag of that id flipped and
    no other flag touched, and whose [changedIds] is that id alone. *)
Theorem toggle_present (s : State) (id : Z) :
  NoDup (ids (items s)) → id ∈ ids (items s) → isProcessActive s = false →
  let d := diff (toggle id s) in
  Diff.prev d = items s
  ∧ ids (Diff.next d) = ids (items s)
  ∧ Item.name <$> Diff.next d = Item.name <$> items s
  ∧ (∀ k p, items s !! k = Some p →
       ∃ n, Diff.next d !! k = Some n
            ∧ Item.selected n
              = if Item.id p =? id then negb (Item.selected p)
                else Item.selected p)
  ∧ Diff.changedIds d = [id].
Proof.
  intros Hnd Hin Hact d. subst d. rewrite diff_toggle by done. simpl.
  split; [done|]. split; [apply ids_flipSelected|]. split; [|split].
  - rewrite <- list_fmap_compose. apply list_fmap_ext.
    intros _ x _. unfold flipSelected. simpl. by destruct (_ =? _).
  - intros k p Hk. exists (flipSelected id p).
    rewrite list_lookup_fmap, Hk. split; [done|].
    unfold flipSelected. by destruct (_ =? _).
  - by apply changedIds_toggle.
Qed.

Lemma toggle_present_witness :
  let d := diff (toggle 2 initialState) in
  Diff.prev d = initialItems
  ∧ ids (Diff.next d) = [1; 2; 3]
  ∧ Diff.changedIds d = [2].
Proof.
  assert (Hnd : NoDup (ids (items initialState)))
    by (refine (bool_decide_unpack (NoDup _) _); vm_compute; exact I).
  assert (Hin : 2 ∈ ids (items initialState))
    by (refine (bool_decide_unpack (_ ∈ _) _); vm_compute; exact I).
  destruct (toggle_present initialState 2 Hnd Hin eq_refl)
    as (H1 & H2 & _ & _ & H5).
  intros d. split; [exact H1|]. split; [exact H2|exact H5].
Defined.

(** X6.  Removing an id of the list (unique ids, process not active)
    starts a diff whose [next] is the list without the item of that id,
    the others in order, and whose [changedIds] is that id alone. *)
Theorem remove_present (s : State) (id : Z) :
  NoDup (ids (items s)) → id ∈ ids (items s) → isProcessActive s = false →
  let d := diff (remove id s) in
  Diff.prev d = items s
  ∧ Diff.next d `sublist_of` items s
  ∧ (∀ i, i ∈ ids (Diff.next d) ↔ i ∈ ids (items s) ∧ i ≠ id)
  ∧ length (Diff.next d) = (length (items s) - 1)%nat
  ∧ Diff.changedIds d = [id].
Proof.
  intros Hnd Hin Hact d. subst d. rewrite diff_remove by done. simpl.
  split; [done|]. split; [apply sublist_filter|].
  split; [intros i; apply elem_of_ids_filter|].
  split; [by apply length_filter_remove|by apply changedIds_remove].
Qed.

Lemma remove_present_witness :
  let d := diff (remove 2 initialState) in
  Diff.prev d = initialItems
  ∧ length (Diff.next d) = 2%nat
  ∧ Diff.changedIds d = [2].
Proof.
  assert (Hnd : NoDup (ids (items initialState)))
    by (refine (bool_decide_unpack (NoDup _) _); vm_compute; exact I).
  assert (Hin : 2 ∈ ids (items initialState))
    by (refine (bool_decide_unpack (_ ∈ _) _); vm_compute; exact I).
  destruct (remove_present initialState 2 Hnd Hin eq_refl)
    as (H1 & _ & _ & H4 & H5).
  intros d. split; [exact H1|]. split; [exact H4|exact H5].
Defined.

(** X7.  Adding with a [Date.now()] that is not yet an id (unique ids,
    process not active) starts a diff whose [next] is the list followed by
    one new item, not selected, named after the new length, and whose
    [changedIds] is the new id alone. *)
Theorem add_fresh (s : State) (dateNow : Z) :
  NoDup (ids (items s)) → dateNow ∉ ids (items s) →
  isProcessActive s = false →
  let d := diff (add dateNow s) in
  Diff.prev d = items s
  ∧ Diff.next d
    = items s ++ [Item.mk dateNow (itemName (S (length (items s)))) false]
  ∧ Diff.changedIds d = [dateNow].
Proof.
  intros Hnd Hfresh Hact d. subst d. rewrite diff_add by done. simpl.
  rewrite Nat.add_1_r. split; [done|]. split; [done|].
  by apply (changedIds_add (Item.mk dateNow _ false)).
Qed.

Lemma add_fresh_witness :
  let d := diff (add 1700000000000 initialState) in
  Diff.prev d = initialItems
  ∧ Diff.next d
    = initialItems ++ [Item.mk 1700000000000 "Item 4" false]
  ∧ Diff.changedIds d = [1700000000000].
Proof.
  apply (add_fresh initialState 1700000000000).
  - refine (bool_decide_unpack (NoDup _) _). vm_compute. exact I.
  - refine (bool_decide_unpack (_ ∉ _) _). vm_compute. exact I.
  - reflexivity.
Defined.

(** X8.  The three actions keep the ids unique: when the list has unique
    ids and the process is not active, the [next] list of the started diff
    has unique ids too, for [add] provided that [Date.now()] is new. *)
Theorem mutations_keep_ids_unique (s : State) :
  NoDup (ids (items s)) → isProcessActive s = false →
  (∀ id, NoDup (ids (Diff.next (diff (toggle id s)))))
  ∧ (∀ id, NoDup (ids (Diff.next (diff (remove id s)))))
  ∧ (∀ dateNow, dateNow ∉ ids (items s) →
       NoDup (ids (Diff.next (diff (add dateNow s))))).
Proof.
  intros Hnd Hact. split; [|split].
  - intros id. rewrite diff_toggle by done. simpl.
    by rewrite ids_flipSelected.
  - intros id. rewrite diff_remove by done. simpl.
    by apply NoDup_ids_filter.
  - intros dateNow Hfresh. rewrite diff_add by done. simpl.
    unfold ids. rewrite fmap_app. apply NoDup_app.
    split; [done|]. split; [|apply NoDup_singleton].
    by intros i Hi ->%list_elem_of_singleton.
Qed.

Lemma mutations_keep_ids_unique_witness :
  NoDup (ids (Diff.next (diff (toggle 1 initialState))))
  ∧ NoDup (ids (Diff.next (diff (remove 1 initialState))))
  ∧ NoDup (ids (Diff.next (diff (add 4 initialState)))).
Proof.
  assert (Hnd : NoDup (ids (items initialState)))
    by (refine (bool_decide_unpack (NoDup _) _); vm_compute; exact I).
  assert (Hin : 4 ∉ ids (items initialState))
    by (refine (bool_decide_unpack (_ ∉ _) _); vm_compute; exact I).
  destruct (mutations_keep_ids_unique initialState Hnd eq_refl)
    as (H1 & H2 & H3).
  split; [exact (H1 1)|]. split; [exact (H2 1)|exact (H3 4 Hin)].
Defined.

(** What a collision of [Date.now()] with an id of the list does: the new
    item hides behind the old one, and the diff reports the id only when
    the old item is selected. *)
Example add_collision :
  let s := setItems [Item.mk 1 "Apple" false; Item.mk 2 "Banana" true]
             initialState in
  Diff.changedIds (diff (add 1 s)) = []
  ∧ Diff.changedIds (diff (add 2 s)) = [2].
Proof. by vm_compute. Qed.

(** X9.  The button "Remove Last" on a list with unique ids removes the
    last item and nothing else. *)
Theorem remove_last (s : State) (l : list Item) (x : Item) :
  items s = l ++ [x] → NoDup (ids (items s)) → isProcessActive s = false →
  let d := diff (remove (lastId (items s)) s) in
  Diff.next d = l ∧ Diff.changedIds d = [Item.id x].
Proof.
  intros Hl Hnd Hact d. subst d.
  assert (Hlast : lastId (items s) = Item.id x)
    by (unfold lastId; by rewrite Hl, last_snoc).
  rewrite Hlast. rewrite diff_remove by done. simpl.
  assert (Hx : Item.id x ∈ ids (items s)).
  { rewrite Hl. unfold ids. rewrite fmap_app. apply elem_of_app.
    right. left. }
  split; [|by apply changedIds_remove].
  rewrite Hl in Hnd |- *. unfold ids in Hnd. rewrite fmap_app in Hnd.
  apply NoDup_app in Hnd as (_ & Hdisj & _).
  rewrite filter_app, filter_cons, filter_nil.
  case_decide; [done|]. rewrite app_nil_r.
  apply remove_absent. intros Hin. apply (Hdisj _ Hin). left.
Qed.

Lemma remove_last_witness :
  let d := diff (remove (lastId initialItems) initialState) in
  Diff.next d = [Item.mk 1 "Apple" false; Item.mk 2 "Banana" false]
  ∧ Diff.changedIds d = [3].
Proof.
  apply (remove_last initialState
           [Item.mk 1 "Apple" false; Item.mk 2 "Banana" false]
           (Item.mk 3 "Cherry" false)).
  - reflexivity.
  - refine (bool_decide_unpack (NoDup _) _). vm_compute. exact I.
  - reflexivity.
Defined.

(** With a repeated id the button removes every item that has the id of
    the last one. *)
Example remove_last_duplicate_id :
  let s := setItems [Item.mk 1 "Apple" false; Item.mk 2 "Banana" false;
                     Item.mk 1 "Apple" true] initialState in
  ids (Diff.next (diff (remove (lastId (items s)) s))) = [2].
Proof. by vm_compute. Qed.

(** ** Complete cycles, one after the other *)

Section Cycles.
Implicit Types (l : list Item) (id : Z) (s : State) (cs : Diff).

Lemma flipSelected_involutive id (item : Item) :
  flipSelected id (flipSelected id item) = item.
Proof.
  destruct item as [i n b]. unfold flipSelected. simpl.
  destruct (Z.eqb_spec i id) as [->|Hne]; simpl.
  - by rewrite Z.eqb_refl, negb_involutive.
  - by destruct (Z.eqb_spec i id).
Qed.

(** What a complete cycle leaves: the [next] list on display, the process
    over. *)
Lemma cycle_after_start cs s :
  let s' := Nat.iter 5 advance (start cs s) in
  items s' = Diff.next cs ∧ isProcessActive s' = false ∧ step s' = 0.
Proof. destruct s. by vm_compute. Qed.

Lemma toggle_start id s :
  isProcessActive s = false →
  toggle id s
  = start (Diff.mk (items s) (flipSelected id <$> items s)
             (getChangedIds (items s) (flipSelected id <$> items s))) s.
Proof. intros H. unfold toggle, call, toggleItem. by rewrite H. Qed.

Lemma add_start dateNow s :
  isProcessActive s = false →
  let nextItems :=
    items s ++ [Item.mk dateNow (itemName (length (items s) + 1)) false] in
  add dateNow s
  = start (Diff.mk (items s) nextItems (getChangedIds (items s) nextItems)) s.
Proof. intros H. unfold add, call, addItem. by rewrite H. Qed.

Lemma remove_start id s :
  isProcessActive s = false →
  let nextItems := filter (λ item, Item.id item ≠ id) (items s) in
  remove id s
  = start (Diff.mk (items s) nextItems (getChangedIds (items s) nextItems)) s.
Proof. intros H. unfold remove, call, removeItem. by rewrite H. Qed.
(** A complete cycle of each action. *)
Lemma cycle_toggle id s :
  isProcessActive s = false →
  let s' := Nat.iter 5 advance (toggle id s) in
  items s' = flipSelected id <$> items s
  ∧ isProcessActive s' = false ∧ step s' = 0.
Proof.
  intros H. rewrite toggle_start by done.
  match goal with
  | |- context [start ?cs s] => exact (cycle_after_start cs s)
  end.
Qed.

Lemma cycle_add dateNow s :
  isProcessActive s = false →
  let s' := Nat.iter 5 advance (add dateNow s) in
  items s'
  = items s ++ [Item.mk dateNow (itemName (length (items s) + 1)) false]
  ∧ isProcessActive s' = false ∧ step s' = 0.
Proof.
  intros H. rewrite add_start by done.
  match goal with
  | |- context [start ?cs s] => exact (cycle_after_start cs s)
  end.
Qed.

Lemma cycle_remove id s :
  isProcessActive s = false →
  let s' := Nat.iter 5 advance (remove id s) in
  items s' = filter (λ item, Item.id item ≠ id) (items s)
  ∧ isProcessActive s' = false ∧ step s' = 0.
Proof.
  intros H. rewrite remove_start by done.
  match goal with
  | |- context [start ?cs s] => exact (cycle_after_start cs s)
  end.
Qed.
End Cycles.

(** X10.  Toggling the same id in two complete cycles gives back the list
    there was: after the first cycle the flag of that id is flipped, after
    the second every item is as before.  No condition on the ids. *)
Theorem toggle_twice (s : State) (id : Z) :
  isProcessActive s = false →
  let s1 := Nat.iter 5 advance (toggle id s) in
  let s2 := Nat.iter 5 advance (toggle id s1) in
  items s1 = flipSelected id <$> items s
  ∧ items s2 = items s ∧ Idle s2.
Proof.
  intros Hact s1 s2.
  destruct (cycle_toggle id s Hact) as (Hitems & Hidle & _).
  destruct (cycle_toggle id s1 Hidle) as (Hitems2 & Hidle2 & Hstep2).
  split; [done|]. split; [|by split].
  subst s2. rewrite Hitems2. subst s1. rewrite Hitems.
  rewrite <- list_fmap_compose. rewrite <- (list_fmap_id (items s)) at 2.
  apply list_fmap_ext. intros _ x _. apply flipSelected_involutive.
Qed.

Lemma toggle_twice_witness :
  let s1 := Nat.iter 5 advance (toggle 1 initialState) in
  let s2 := Nat.iter 5 advance (toggle 1 s1) in
  items s1 = flipSelected 1 <$> initialItems
  ∧ items s2 = initialItems ∧ Idle s2.
Proof. apply (toggle_twice initialState 1). reflexivity. Defined.

(** X11.  A cycle that adds an item with a new id, followed by a cycle of
    "Remove Last", gives back the list there was. *)
Theorem add_then_remove_last (s : State) (dateNow : Z) :
  isProcessActive s = false → dateNow ∉ ids (items s) →
  let s1 := Nat.iter 5 advance (add dateNow s) in
  let s2 := Nat.iter 5 advance (remove (lastId (items s1)) s1) in
  length (items s1) = S (length (items s))
  ∧ items s2 = items s ∧ Idle s2.
Proof.
  intros Hact Hfresh s1 s2.
  destruct (cycle_add dateNow s Hact) as (Hitems & Hidle & _).
  destruct (cycle_remove (lastId (items s1)) s1 Hidle)
    as (Hitems2 & Hidle2 & Hstep2).
  split; [subst s1; rewrite Hitems, length_app; simpl; lia|].
  split; [|by split].
  subst s2. rewrite Hitems2. subst s1. rewrite Hitems.
  unfold lastId. rewrite last_snoc. simpl.
  rewrite filter_app, filter_cons, filter_nil. simpl.
  case_decide; [done|]. rewrite app_nil_r. by apply remove_absent.
Qed.

Lemma add_then_remove_last_witness :
  let s1 := Nat.iter 5 advance (add 1700000000000 initialState) in
  let s2 := Nat.iter 5 advance (remove (lastId (items s1)) s1) in
  length (items s1) = 4%nat ∧ items s2 = initialItems ∧ Idle s2.
Proof.
  apply (add_then_remove_last initialState 1700000000000).
  - reflexivity.
  - refine (bool_decide_unpack (_ ∉ _) _). vm_compute. exact I.
Defined.

(** ** The two trees of the diff *)

Section Trees.
Implicit Types (l prev next : list Item) (i id : Z) (p : Item) (d : Diff)
  (h : list Z).

Lemma someId_true id l : someId id l = true ↔ id ∈ ids l.
Proof.
  unfold someId, ids. rewrite existsb_exists, list_elem_of_fmap.
  split.
  - intros (x & Hx%list_elem_of_In & Heq%Z.eqb_eq). by exists x.
  - intros (x & -> & Hx). exists x. split; [by apply list_elem_of_In|].
    apply Z.eqb_refl.
Qed.

Lemma someId_false id l : someId id l = false ↔ id ∉ ids l.
Proof.
  rewrite <- someId_true. by destruct (someId id l).
Qed.

Lemma includes_true h id : includes h id = true ↔ id ∈ h.
Proof.
  unfold includes. rewrite existsb_exists. split.
  - by intros (x & Hx%list_elem_of_In & ->%Z.eqb_eq).
  - intros Hx. exists id. split; [by apply list_elem_of_In|].
    apply Z.eqb_refl.
Qed.

Lemma elem_of_prevHighlight d i :
  i ∈ prevHighlight d ↔ i ∈ Diff.changedIds d ∧ i ∈ ids (Diff.prev d).
Proof.
  unfold prevHighlight.
  by rewrite list_elem_of_In, filter_In, <- list_elem_of_In, someId_true.
Qed.

Lemma elem_of_nextHighlight d i :
  i ∈ nextHighlight d ↔ i ∈ Diff.changedIds d ∧ i ∈ ids (Diff.next d).
Proof.
  unfold nextHighlight.
  by rewrite list_elem_of_In, filter_In, <- list_elem_of_In, someId_true.
Qed.

(** The answer of [getItemChangeType] is decided by membership alone. *)
Lemma getItemChangeType_cases id prev next :
  getItemChangeType id prev next =
  match someId id prev, someId id next with
  | false, true => Some "added"%string
  | true, false => Some "removed"%string
  | true, true => Some "changed"%string
  | false, false => None
  end.
Proof.
  unfold getItemChangeType. by destruct (someId id prev), (someId id next).
Qed.

(** The color of a row, by cases. *)
Lemma rowColor_cases h prev next p :
  rowColor h prev next p =
  if includes h (Item.id p) then
    match someId (Item.id p) prev, someId (Item.id p) next with
    | false, true => COLOR_ADDED
    | true, false => COLOR_REMOVED
    | true, true => COLOR_CHANGED
    | false, false => ""%string
    end
  else ""%string.
Proof.
  unfold rowColor. rewrite getItemChangeType_cases.
  by destruct (includes h (Item.id p)), (someId (Item.id p) prev),
    (someId (Item.id p) next).
Qed.

Lemma toggled_in_both prev next i :
  toggled prev next i → i ∈ ids prev ∧ i ∈ ids next.
Proof.
  intros (p & n & Hp & Hn & <- & Hid & _). unfold ids.
  split; [by apply list_elem_of_fmap_2|].
  rewrite <- Hid. by apply list_elem_of_fmap_2.
Qed.

(** An id that the diff reports and that is in both lists is toggled. *)
Lemma changed_in_both prev next i :
  NoDup (ids prev) → i ∈ ids prev → i ∈ ids next →
  i ∈ getChangedIds prev next ↔ toggled prev next i.
Proof.
  intros Hnd Hp Hn. rewrite elem_of_getChangedIds by done.
  unfold added, removed. split; [|by auto].
  by intros [[_ ?]|[?|[_ ?]]].
Qed.
End Trees.

(** X12.  For an id that [getChangedIds] reports (unique ids in [prev]),
    [getItemChangeType] never answers [null], and it answers ['added'],
    ['removed'] and ['changed'] exactly for the ids that are added, removed
    and toggled. *)
Theorem getItemChangeType_of_changed (prev next : list Item) (i : Z) :
  NoDup (ids prev) → i ∈ getChangedIds prev next →
  getItemChangeType i prev next ≠ None
  ∧ (getItemChangeType i prev next = Some "added"%string
     ↔ added prev next i)
  ∧ (getItemChangeType i prev next = Some "removed"%string
     ↔ removed prev next i)
  ∧ (getItemChangeType i prev next = Some "changed"%string
     ↔ toggled prev next i).
Proof.
  intros Hnd Hi. rewrite getItemChangeType_cases.
  pose proof (someId_true i prev) as Hp.
  pose proof (someId_true i next) as Hn.
  pose proof (toggled_in_both prev next i) as Hboth.
  pose proof Hi as Hkind. rewrite elem_of_getChangedIds in Hkind by done.
  unfold added, removed in *.
  destruct (someId i prev), (someId i next);
    first [assert (i ∈ ids prev) by (by apply Hp)
          |assert (i ∉ ids prev) by (by intros ?%Hp)];
    first [assert (i ∈ ids next) by (by apply Hn)
          |assert (i ∉ ids next) by (by intros ?%Hn)];
    clear Hp Hn; intuition congruence.
Qed.

Lemma getItemChangeType_of_changed_witness :
  let prev := [Item.mk 1 "Apple" false; Item.mk 2 "Banana" false] in
  let next := [Item.mk 1 "Apple" true; Item.mk 3 "Cherry" false] in
  getItemChangeType 3 prev next ≠ None
  ∧ (getItemChangeType 3 prev next = Some "added"%string
     ↔ added prev next 3)
  ∧ (getItemChangeType 3 prev next = Some "removed"%string
     ↔ removed prev next 3)
  ∧ (getItemChangeType 3 prev next = Some "changed"%string
     ↔ toggled prev next 3).
Proof.
  intros prev next. apply (getItemChangeType_of_changed prev next 3).
  - refine (bool_decide_unpack (NoDup _) _). vm_compute. exact I.
  - refine (bool_decide_unpack (_ ∈ _) _). vm_compute. exact I.
Defined.

(** The function does not look at the flags: asked about an id of both
    lists that did not change, it answers ['changed'] all the same. *)
Example getItemChangeType_unchanged :
  getItemChangeType 2 initialItems initialItems = Some "changed"%string
  ∧ getChangedIds initialItems initialItems = [].
Proof. by vm_compute. Qed.

(** X13.  The tree "Previous Virtual DOM" of a diff whose [changedIds] is
    [getChangedIds prev next] (unique ids in [prev]): the row of an item is
    given the color of a removal exactly when its id is removed, the color
    of a change exactly when its id is toggled, no color exactly when its
    id is not reported, and never the color of an addition. *)
Theorem prevTree_colors (d : Diff) (p : Item) :
  NoDup (ids (Diff.prev d)) →
  Diff.changedIds d = getChangedIds (Diff.prev d) (Diff.next d) →
  p ∈ Diff.prev d →
  let color := rowColor (prevHighlight d) (Diff.prev d) (Diff.next d) p in
  (color = COLOR_REMOVED ↔ removed (Diff.prev d) (Diff.next d) (Item.id p))
  ∧ (color = COLOR_CHANGED
     ↔ toggled (Diff.prev d) (Diff.next d) (Item.id p))
  ∧ (color = ""%string ↔ Item.id p ∉ Diff.changedIds d)
  ∧ color ≠ COLOR_ADDED.
Proof.
  intros Hnd Hch Hp color. subst color. rewrite rowColor_cases.
  assert (Hin : Item.id p ∈ ids (Diff.prev d))
    by (unfold ids; by apply list_elem_of_fmap_2).
  pose proof (includes_true (prevHighlight d) (Item.id p)) as Hinc.
  rewrite elem_of_prevHighlight in Hinc.
  pose proof (someId_true (Item.id p) (Diff.next d)) as Hn.
  apply someId_true in Hin as Hsome. rewrite Hsome.
  pose proof (elem_of_getChangedIds (Diff.prev d) (Diff.next d) (Item.id p)
                Hnd) as Hkind.
  rewrite <- Hch in Hkind.
  pose proof (toggled_in_both (Diff.prev d) (Diff.next d) (Item.id p))
    as Hboth.
  unfold removed, added in *.
  assert (COLOR_REMOVED ≠ COLOR_CHANGED ∧ COLOR_REMOVED ≠ COLOR_ADDED
          ∧ COLOR_CHANGED ≠ COLOR_ADDED ∧ COLOR_REMOVED ≠ ""%string
          ∧ COLOR_CHANGED ≠ ""%string ∧ COLOR_ADDED ≠ ""%string)
    as (? & ? & ? & ? & ? & ?) by (by repeat split).
  destruct (includes (prevHighlight d) (Item.id p));
    first [assert (Item.id p ∈ Diff.changedIds d) by (by apply Hinc)
          |assert (Item.id p ∉ Diff.changedIds d)
             by (intros ?; by assert (false = true) by (by apply Hinc))];
    destruct (someId (Item.id p) (Diff.next d));
    first [assert (Item.id p ∈ ids (Diff.next d)) by (by apply Hn)
          |assert (Item.id p ∉ ids (Diff.next d)) by (by intros ?%Hn)];
    clear Hinc Hn; intuition congruence.
Qed.

Lemma prevTree_colors_witness :
  let next := [Item.mk 1 "Apple" true; Item.mk 3 "Cherry" false] in
  let d := Diff.mk initialItems next (getChangedIds initialItems next) in
  let banana := Item.mk 2 "Banana" false in
  let color := rowColor (prevHighlight d) (Diff.prev d) (Diff.next d)
                 banana in
  (color = COLOR_REMOVED ↔ removed (Diff.prev d) (Diff.next d) 2)
  ∧ (color = COLOR_CHANGED ↔ toggled (Diff.prev d) (Diff.next d) 2)
  ∧ (color = ""%string ↔ 2 ∉ Diff.changedIds d)
  ∧ color ≠ COLOR_ADDED.
Proof.
  intros next d banana. apply (prevTree_colors d banana).
  - refine (bool_decide_unpack (NoDup _) _). vm_compute. exact I.
  - reflexivity.
  - right. left.
Defined.

Example prevTree_nextTree_scenario :
  let next := [Item.mk 1 "Apple" true; Item.mk 3 "Cherry" false;
               Item.mk 4 "Item 4" false] in
  let d := Diff.mk initialItems next (getChangedIds initialItems next) in
  prevTree d = [COLOR_CHANGED; COLOR_REMOVED; ""%string]
  ∧ nextTree d = [COLOR_CHANGED; ""%string; COLOR_ADDED].
Proof. by vm_compute. Qed.

(** X14.  The tree "New Virtual DOM" of such a diff: the row of an item is
    given the color of an addition exactly when its id is added, the color
    of a change exactly when its id is toggled, no color exactly when its
    id is not reported, and never the color of a removal. *)
Theorem nextTree_colors (d : Diff) (n : Item) :
  NoDup (ids (Diff.prev d)) →
  Diff.changedIds d = getChangedIds (Diff.prev d) (Diff.next d) →
  n ∈ Diff.next d →
  let color := rowColor (nextHighlight d) (Diff.prev d) (Diff.next d) n in
  (color = COLOR_ADDED ↔ added (Diff.prev d) (Diff.next d) (Item.id n))
  ∧ (color = COLOR_CHANGED
     ↔ toggled (Diff.prev d) (Diff.next d) (Item.id n))
  ∧ (color = ""%string ↔ Item.id n ∉ Diff.changedIds d)
  ∧ color ≠ COLOR_REMOVED.
Proof.
  intros Hnd Hch Hn color. subst color. rewrite rowColor_cases.
  assert (Hin : Item.id n ∈ ids (Diff.next d))
    by (unfold ids; by apply list_elem_of_fmap_2).
  pose proof (includes_true (nextHighlight d) (Item.id n)) as Hinc.
  rewrite elem_of_nextHighlight in Hinc.
  pose proof (someId_true (Item.id n) (Diff.prev d)) as Hp.
  apply someId_true in Hin as Hsome. rewrite Hsome.
  pose proof (elem_of_getChangedIds (Diff.prev d) (Diff.next d) (Item.id n)
                Hnd) as Hkind.
  rewrite <- Hch in Hkind.
  pose proof (toggled_in_both (Diff.prev d) (Diff.next d) (Item.id n))
    as Hboth.
  unfold removed, added in *.
  assert (COLOR_REMOVED ≠ COLOR_CHANGED ∧ COLOR_REMOVED ≠ COLOR_ADDED
          ∧ COLOR_CHANGED ≠ COLOR_ADDED ∧ COLOR_REMOVED ≠ ""%string
          ∧ COLOR_CHANGED ≠ ""%string ∧ COLOR_ADDED ≠ ""%string)
    as (? & ? & ? & ? & ? & ?) by (by repeat split).
  destruct (includes (nextHighlight d) (Item.id n));
    first [assert (Item.id n ∈ Diff.changedIds d) by (by apply Hinc)
          |assert (Item.id n ∉ Diff.changedIds d)
             by (intros ?; by assert (false = true) by (by apply Hinc))];
    destruct (someId (Item.id n) (Diff.prev d));
    first [assert (Item.id n ∈ ids (Diff.prev d)) by (by apply Hp)
          |assert (Item.id n ∉ ids (Diff.prev d)) by (by intros ?%Hp)];
    clear Hinc Hp; intuition congruence.
Qed.

Lemma nextTree_colors_witness :
  let next := [Item.mk 1 "Apple" true; Item.mk 4 "Item 4" false] in
  let d := Diff.mk initialItems next (getChangedIds initialItems next) in
  let item4 := Item.mk 4 "Item 4" false in
  let color := rowColor (nextHighlight d) (Diff.prev d) (Diff.next d)
                 item4 in
  (color = COLOR_ADDED ↔ added (Diff.prev d) (Diff.next d) 4)
  ∧ (color = COLOR_CHANGED ↔ toggled (Diff.prev d) (Diff.next d) 4)
  ∧ (color = ""%string ↔ 4 ∉ Diff.changedIds d)
  ∧ color ≠ COLOR_REMOVED.
Proof.
  intros next d item4. apply (nextTree_colors d item4).
  - refine (bool_decide_unpack (NoDup _) _). vm_compute. exact I.
  - reflexivity.
  - right. left.
Defined.

(** ** What the page shows *)

Section Displayed.
Implicit Types (c : Component) (s env : State) (e : Event).

Lemma displayed_initialState : displayed initialState.
Proof. split; simpl; try done; try lia. by left. Qed.

Lemma displayed_nextStep env s :
  activeIffStep s → stepInRange s → renderPending s → displayed s →
  isProcessActive s = true → pendingItems env = pendingItems s →
  displayed (nextStep env s).
Proof.
  unfold activeIffStep, stepInRange, renderPending.
  intros Hinv Hr Hp [D1 D2 D3 D4 D5 D6 D7] Hact Henv.
  destruct s as [its pend sd st rp cp d sc am act]. simpl in *. subst.
  unfold nextStep.
  assert (st ≠ 0) by (intros Hst; by apply Hinv in Hst).
  split; run; zcases; simpl in *;
    try (intuition (first [lia | congruence | done])).
  all: try (rewrite D1; lia); try (rewrite D2; lia);
    try (intros; apply D5; lia); try (intros; apply D6; lia).
  intros _. exfalso. assert (None = Some (Diff.next d)) by (apply Hp; lia).
  done.
Qed.

Lemma displayed_previousStep s :
  activeIffStep s → stepInRange s → renderPending s → displayed s →
  isProcessActive s = true → displayed (call previousStep s).
Proof.
  unfold activeIffStep, stepInRange, renderPending.
  intros Hinv Hr Hp [D1 D2 D3 D4 D5 D6 D7] Hact.
  destruct s as [its pend sd st rp cp d sc am act]. simpl in *. subst.
  assert (st ≠ 0) by (intros Hst; by apply Hinv in Hst).
  split; run; zcases; simpl in *;
    try (intuition (first [lia | congruence | done])).
  - rewrite D1. lia.
  - intros. apply D5. lia.
Qed.

Lemma displayed_startProcess (cs : Diff) s :
  Diff.prev cs = items s →
  Diff.changedIds cs = getChangedIds (Diff.prev cs) (Diff.next cs) →
  displayed (startProcess cs s).
Proof.
  intros Hprev Hch. destruct s. simpl in *.
  split; simpl; try done; try lia. by right.
Qed.

Lemma displayed_resetProcess s : displayed s → displayed (resetProcess s).
Proof.
  intros [_ _ _ _ _ _ D7]. destruct s. simpl in *.
  split; simpl; try done; try lia. by left.
Qed.

Lemma displayed_onClick e s :
  activeIffStep s → stepInRange s → renderPending s → displayed s →
  enabled e s = true → displayed (onClick e s).
Proof.
  intros Hinv Hr Hp HD Hen.
  assert (isProcessActive s = true ∨ isProcessActive s = false) as [Ha|Ha]
    by (destruct (isProcessActive s); by auto).
  - destruct e; simpl in Hen; rewrite ?Ha in Hen; simpl in Hen;
      rewrite ?orb_true_r in Hen; try done; simpl.
    + destruct HD. by destruct s.
    + by apply displayed_nextStep.
    + by apply displayed_previousStep.
    + by apply displayed_resetProcess.
    + destruct HD. by destruct s.
  - destruct e; simpl in Hen; rewrite ?Ha in Hen; simpl in Hen;
      try done; simpl.
    + change (displayed (toggle 1 s)). rewrite toggle_start by done.
      by apply displayed_startProcess.
    + change (displayed (add dateNow s)). rewrite add_start by done.
      by apply displayed_startProcess.
    + change (displayed (remove (lastId (items s)) s)).
      rewrite remove_start by done. by apply displayed_startProcess.
    + destruct HD. by destruct s.
    + destruct HD. by destruct s.
Qed.

(** The state that a click leaves is the state there was or what the
    handler of the button, enabled, returns; the state that a unit of time
    leaves is the state there was or, when the timer fires, what [advance]
    returns.  The second effect adds nothing. *)
Lemma state_click e c :
  consistent c → (∀ d, e ≠ Elapse d) →
  state (handle e c) = state c
  ∨ (enabled e (state c) = true ∧ state (handle e c) = onClick e (state c)).
Proof.
  intros [Hinv Hr Hp Htm] Hclick.
  destruct e; try (by destruct (Hclick d)); unfold handle;
    (destruct (enabled _ (state c)) eqn:Hen; [right|by left]);
    (split; [done|]); rewrite afterRender_range; try done;
    by apply onClick_range.
Qed.

Lemma state_tick c :
  consistent c →
  state (tick c) = state c
  ∨ (isProcessActive (state c) = true ∧ isAutoMode (state c) = true
     ∧ state (tick c) = advance (state c)).
Proof.
  intros [Hinv Hr Hp Htm].
  destruct (tick_cases c) as [(? & _)|(tm & Htimer & _ & ->)]; [by left|].
  destruct (Htm tm Htimer) as (Hact & Ham & Hpend).
  right. split; [done|]. split; [done|].
  rewrite afterRender_range by by apply step_nextStep_range.
  cbn [state]. unfold advance, call. apply nextStep_env. exact Hpend.
Qed.

Lemma reachable_displayed c : reachable c → displayed (state c).
Proof.
  induction 1 as [t|e c Hclick Hreach IH|c Hreach IH]
    using reachable_atomic_ind; [apply displayed_initialState| |];
    pose proof (reachable_consistent c Hreach) as Hc.
  - destruct (state_click e c Hc Hclick) as [->|[Hen ->]]; [done|].
    destruct Hc as [Hinv Hr Hp _]. by apply displayed_onClick.
  - destruct (state_tick c Hc) as [->|(Hact & _ & ->)]; [done|].
    destruct Hc as [Hinv Hr Hp _]. unfold advance, call.
    apply displayed_nextStep; first [assumption | reflexivity].
Qed.
End Displayed.

(** X15.  On every reachable component the phase flags follow the step:
    [renderPhase] is set exactly in steps 1 to 3, [commitPhase] exactly in
    steps 4 and 5, never both; the two trees are shown ([showDiff]) exactly
    while the process is active; and a pending list exists exactly in
    steps 1 to 3, where it is [diff.next]. *)
Theorem reachable_phases (c : Component) :
  reachable c →
  let s := state c in
  (renderPhase s = true ↔ 1 ≤ step s ≤ 3)
  ∧ (commitPhase s = true ↔ 4 ≤ step s ≤ 5)
  ∧ ¬ (renderPhase s = true ∧ commitPhase s = true)
  ∧ showDiff s = isProcessActive s
  ∧ (1 ≤ step s ≤ 3 → pendingItems s = Some (Diff.next (diff s)))
  ∧ (¬ 1 ≤ step s ≤ 3 → pendingItems s = None).
Proof.
  intros Hreach s. subst s.
  pose proof (reachable_displayed c Hreach) as [D1 D2 D3 D4 _ _ _].
  pose proof (reachable_consistent c Hreach) as [_ Hr Hp _].
  unfold stepInRange, MAX_STEP, renderPending in *.
  split; [done|]. split; [rewrite D2; lia|].
  split; [rewrite D1, D2; lia|]. split; [done|]. split; [done|].
  intros Hout. by destruct D4 as [?|[? _]].
Qed.

Lemma reachable_phases_witness :
  let s := state (handle ClickToggleApple (mount 0)) in
  renderPhase s = true ∧ commitPhase s ≠ true
  ∧ showDiff s = isProcessActive s
  ∧ pendingItems s = Some (Diff.next (diff s)).
Proof.
  intros s.
  destruct (reachable_phases (handle ClickToggleApple (mount 0))
              (reachable_handle _ _ (reachable_mount 0)))
    as (H1 & H2 & _ & H4 & H5 & _).
  split; [apply H1; vm_compute; split; discriminate|].
  split; [intros H; apply H2 in H; vm_compute in H; by destruct H|].
  split; [exact H4|]. apply H5. vm_compute. split; discriminate.
Defined.

(** X16.  On every reachable component the list on display is the list
    from before the mutation ([diff.prev]) throughout steps 1 to 3 and the
    new list ([diff.next]) in steps 4 and 5, and the stored [changedIds] is
    the diff of the two stored lists. *)
Theorem reachable_list_on_display (c : Component) :
  reachable c →
  let s := state c in
  (1 ≤ step s ≤ 3 → items s = Diff.prev (diff s))
  ∧ (4 ≤ step s → items s = Diff.next (diff s))
  ∧ Diff.changedIds (diff s)
    = getChangedIds (Diff.prev (diff s)) (Diff.next (diff s)).
Proof.
  intros Hreach s. subst s.
  by pose proof (reachable_displayed c Hreach) as [_ _ _ _ D5 D6 D7].
Qed.

Lemma reachable_list_on_display_witness :
  let c := handle ClickNext
             (handle ClickRemoveLast (handle ClickMode (mount 0))) in
  items (state c) = Diff.prev (diff (state c))
  ∧ Diff.changedIds (diff (state c))
    = getChangedIds (Diff.prev (diff (state c))) (Diff.next (diff (state c))).
Proof.
  intros c.
  destruct (reachable_list_on_display c) as (H1 & _ & H3).
  - do 3 apply reachable_handle. apply reachable_mount.
  - split; [|exact H3]. apply H1. vm_compute. split; discriminate.
Defined.

(** ** Going back and forth *)

(** X17.  On a reachable component with the process active, [retreat]
    undoes [advance] in steps 1 to 4 and [advance] undoes [retreat] in
    steps 2 to 5: the whole state, phase flags, list on display and pending
    list included, is as before. *)
Theorem retreat_advance_inverse (c : Component) :
  reachable c → isProcessActive (state c) = true →
  (1 ≤ step (state c) ≤ 4 → retreat (advance (state c)) = state c)
  ∧ (2 ≤ step (state c) ≤ 5 → advance (retreat (state c)) = state c).
Proof.
  intros Hreach Hact.
  pose proof (reachable_displayed c Hreach) as [D1 D2 D3 D4 D5 D6 _].
  pose proof (reachable_consistent c Hreach) as [_ _ Hp _].
  unfold renderPending in Hp.
  destruct (state c) as [its pend sd st rp cp d sc am act].
  simpl in *. subst.
  assert (Hrp : 1 ≤ st ≤ 3 → rp = true) by (intros ?; by apply D1).
  assert (Hcp : 4 ≤ st → cp = true) by (intros ?; by apply D2).
  assert (Hrp' : 4 ≤ st → rp = false).
  { intros ?. destruct rp; [|done]. assert (1 ≤ st ≤ 3) by by apply D1. lia. }
  assert (Hcp' : st ≤ 3 → cp = false).
  { intros ?. destruct cp; [|done]. assert (4 ≤ st) by by apply D2. lia. }
  assert (Hpend : 4 ≤ st → pend = None).
  { intros ?. destruct D4 as [?|[? _]]; [done|lia]. }
  split; intros Hst.
  - assert (st = 1 ∨ st = 2 ∨ st = 3 ∨ st = 4) as [-> | [-> | [-> | ->]]] by lia;
      try rewrite Hrp by lia; try rewrite Hcp by lia;
      try rewrite Hrp' by lia; try rewrite Hcp' by lia;
      try rewrite Hp by lia; try rewrite Hpend by lia;
      try rewrite D5 by lia; try rewrite D6 by lia; by vm_compute.
  - assert (st = 2 ∨ st = 3 ∨ st = 4 ∨ st = 5) as [-> | [-> | [-> | ->]]] by lia;
      try rewrite Hrp by lia; try rewrite Hcp by lia;
      try rewrite Hrp' by lia; try rewrite Hcp' by lia;
      try rewrite Hp by lia; try rewrite Hpend by lia;
      try rewrite D5 by lia; try rewrite D6 by lia; by vm_compute.
Qed.

Lemma retreat_advance_inverse_witness :
  let c := Nat.iter 2 (handle ClickNext)
             (handle ClickToggleApple (handle ClickMode (mount 0))) in
  step (state c) = 3
  ∧ retreat (advance (state c)) = state c
  ∧ advance (retreat (state c)) = state c.
Proof.
  intros c.
  destruct (retreat_advance_inverse c) as [H1 H2].
  - do 4 apply reachable_handle. apply reachable_mount.
  - reflexivity.
  - split; [reflexivity|].
    split; [apply H1|apply H2]; vm_compute; split; discriminate.
Defined.

(** From step 5 [advance] ends the process, which [retreat] does not
    bring back. *)
Example advance_from_5_not_undone :
  let c := Nat.iter 4 (handle ClickNext)
             (handle ClickToggleApple (handle ClickMode (mount 0))) in
  step (state c) = 5
  ∧ step (retreat (advance (state c))) = 1
  ∧ isProcessActive (retreat (advance (state c))) = false.
Proof. by vm_compute. Qed.

(** ** The second effect, the timer and the mode *)

(** X18.  On a reachable component the second effect,
    [if (step > MAX_STEP) resetProcess()], never resets: no handler of a
    button and no firing of the timer leaves a step above 5, [nextStep]
    having reset the process itself. *)
Theorem overflow_effect_silent (c : Component) :
  reachable c →
  (∀ e, overflowEffect (state c) (onClick e (state c)) = false)
  ∧ (∀ tm, timer c = Some tm →
       overflowEffect (state c) (nextStep (callback tm) (state c)) = false)
  ∧ (∀ e, step (state (handle e c)) ≤ MAX_STEP).
Proof.
  intros Hreach.
  pose proof (reachable_consistent c Hreach) as [_ Hr _ _].
  split; [|split].
  - intros e. by apply overflowEffect_range, onClick_range.
  - intros tm _. by apply overflowEffect_range, step_nextStep_range.
  - intros e.
    pose proof (reachable_consistent _ (reachable_handle e c Hreach))
      as [_ [_ ?] _ _]. done.
Qed.

Lemma overflow_effect_silent_witness :
  let c := Nat.iter 4 (handle (Elapse 800))
             (handle ClickToggleApple (mount 0)) in
  step (state c) = 5
  ∧ (∀ tm, timer c = Some tm →
       overflowEffect (state c) (nextStep (callback tm) (state c)) = false)
  ∧ step (state (handle (Elapse 800) c)) ≤ MAX_STEP.
Proof.
  intros c.
  destruct (overflow_effect_silent c) as (_ & H2 & H3).
  - do 5 apply reachable_handle. apply reachable_mount.
  - split; [reflexivity|]. split; [exact H2|exact (H3 (Elapse 800))].
Defined.

(** X19.  On a reachable component in manual mode, or with the process not
    active, no timer is pending, and time passing changes nothing of the
    state. *)
Theorem no_timer_unless_auto_active (c : Component) :
  reachable c →
  isAutoMode (state c) = false ∨ isProcessActive (state c) = false →
  timer c = None
  ∧ ∀ d, state (handle (Elapse d) c) = state c
         ∧ timer (handle (Elapse d) c) = None.
Proof.
  intros [_ _ _ Htm]%reachable_consistent Hor.
  assert (Hnone : timer c = None).
  { destruct (timer c) as [tm|] eqn:Ht; [|done].
    destruct (Htm tm eq_refl) as (Ha & Hm & _).
    destruct Hor; congruence. }
  split; [done|]. intros d. cbn [handle].
  by rewrite (elapse_no_timer d c Hnone).
Qed.

Lemma no_timer_unless_auto_active_witness :
  let c := handle ClickToggleApple (handle ClickMode (mount 0)) in
  isProcessActive (state c) = true
  ∧ timer c = None
  ∧ state (handle (Elapse 100000) c) = state c.
Proof.
  intros c.
  destruct (no_timer_unless_auto_active c) as (H1 & H2).
  - do 2 apply reachable_handle. apply reachable_mount.
  - left. reflexivity.
  - split; [reflexivity|]. split; [exact H1|apply H2].
Defined.

(** X20.  Switching to auto mode while the process is active leaves a
    timer due 800 time units later, and when that time has passed the
    state is [advance] of the state after the switch: playback resumes. *)
Theorem switch_to_auto_resumes (c : Component) :
  reachable c →
  isAutoMode (state c) = false → isProcessActive (state c) = true →
  let c' := handle ClickMode c in
  state c' = toggleAutoMode (state c)
  ∧ isAutoMode (state c') = true
  ∧ timer c' = Some (mkTimer (now c + AUTO_DELAY) (state c'))
  ∧ state (handle (Elapse 800) c') = advance (state c').
Proof.
  intros Hreach Hauto Hact c'.
  pose proof (reachable_consistent c Hreach) as [Hinv Hr _ _].
  assert (Hc' : c' = mkComponent (now c) (toggleAutoMode (state c))
                  (Some (mkTimer (now c + AUTO_DELAY)
                           (toggleAutoMode (state c))))).
  { subst c'. unfold handle. cbn [enabled onClick].
    rewrite afterRender_range by done. cbn [now state timer]. f_equal.
    rewrite runAutoEffect_changed.
    - apply autoEffect_window.
      + unfold toggleAutoMode. rewrite Hauto. by destruct (state c).
      + unfold activeWindow, stepInRange, activeIffStep in *.
        assert (step (state c) ≠ 0)
          by (intros H0; apply Hinv in H0; congruence).
        destruct (state c); simpl in *. split; [done|lia].
    - unfold autoDeps, toggleAutoMode. rewrite Hauto.
      destruct (state c); simpl. congruence. }
  pose proof (reachable_handle ClickMode c Hreach) as Hreach'.
  fold c' in Hreach'.
  pose proof (reachable_consistent c' Hreach') as [_ Hr' _ _].
  rewrite Hc' in *. cbn [state timer now] in *.
  split; [done|]. split.
  { unfold toggleAutoMode. rewrite Hauto. by destruct (state c). }
  split; [done|]. cbn [handle].
  rewrite (elapse_until_due 800 _
             (mkTimer (now c + AUTO_DELAY) (toggleAutoMode (state c))));
    [|done|cbn [now due]; unfold AUTO_DELAY; lia|done].
  unfold fire. cbn [now state timer due callback].
  by rewrite afterRender_range by by apply step_nextStep_range.
Qed.

Lemma switch_to_auto_resumes_witness :
  let c := handle ClickToggleApple (handle ClickMode (mount 0)) in
  let c' := handle ClickMode c in
  timer c' = Some (mkTimer (0 + AUTO_DELAY) (state c'))
  ∧ step (state (handle (Elapse 800) c')) = 2.
Proof.
  intros c c'.
  destruct (switch_to_auto_resumes c) as (_ & _ & H3 & H4).
  - do 2 apply reachable_handle. apply reachable_mount.
  - reflexivity.
  - reflexivity.
  - split; [exact H3|]. fold c' in H4. rewrite H4. reflexivity.
Defined.

(** X21.  The Reset button on a reachable component with the process
    active: the process ends with no timer pending; pressed in steps 1 to
    3 it leaves the list from before the mutation on display (the change is
    dropped), pressed in steps 4 and 5 it leaves the new list; the stored
    diff stays. *)
Theorem reset_drops_or_keeps (c : Component) :
  reachable c → isProcessActive (state c) = true →
  let c' := handle ClickReset c in
  state c' = reset (state c)
  ∧ Idle (state c') ∧ timer c' = None
  ∧ diff (state c') = diff (state c)
  ∧ (step (state c) ≤ 3 → items (state c') = Diff.prev (diff (state c)))
  ∧ (4 ≤ step (state c) → items (state c') = Diff.next (diff (state c))).
Proof.
  intros Hreach Hact c'.
  pose proof (reachable_displayed c Hreach) as [_ _ _ _ D5 D6 _].
  pose proof (reachable_consistent c Hreach) as [Hinv Hr _ _].
  assert (Hst : step (state c) ≠ 0)
    by (intros H0; apply Hinv in H0; congruence).
  assert (Hc' : c' = mkComponent (now c) (resetProcess (state c)) None).
  { subst c'. unfold handle. cbn [enabled onClick]. rewrite Hact.
    cbn [negb]. rewrite afterRender_range by done.
    cbn [now state timer]. f_equal. rewrite runAutoEffect_changed.
    - apply autoEffect_outside; [done|]. by intros [_ [? _]].
    - unfold autoDeps. simpl. congruence. }
  rewrite Hc'. cbn [state timer]. unfold stepInRange in Hr.
  split; [done|]. split; [done|]. split; [done|].
  split; [by destruct (state c)|].
  split; intros ?;
    [rewrite <- D5 by lia|rewrite <- D6 by lia]; by destruct (state c).
Qed.

Lemma reset_drops_or_keeps_witness :
  let c := handle ClickToggleApple (mount 0) in
  let c' := handle ClickReset c in
  Idle (state c') ∧ timer c' = None ∧ items (state c') = initialItems.
Proof.
  intros c c'.
  destruct (reset_drops_or_keeps c) as (_ & H2 & H3 & _ & H5 & _).
  - apply reachable_handle, reachable_mount.
  - reflexivity.
  - split; [exact H2|]. split; [exact H3|].
    apply H5. vm_compute. discriminate.
Defined.

Section Frame.
Implicit Types (c : Component) (s old env : State) (e : Event).

Lemma afterRender_frame old c :
  isAutoMode (state (afterRender old c)) = isAutoMode (state c)
  ∧ diff (state (afterRender old c)) = diff (state c)
  ∧ items (state (afterRender old c)) = items (state c).
Proof.
  unfold afterRender. destruct (overflowEffect old (state c)); [|done].
  by destruct (state c).
Qed.

Lemma nextStep_frame env s :
  isAutoMode (nextStep env s) = isAutoMode s ∧ diff (nextStep env s) = diff s.
Proof. destruct s. run. by zcases. Qed.

Lemma previousStep_frame env s :
  isAutoMode (previousStep env s) = isAutoMode s
  ∧ diff (previousStep env s) = diff s.
Proof. destruct s. run. by zcases. Qed.

Lemma tick_frame c :
  isAutoMode (state (tick c)) = isAutoMode (state c)
  ∧ diff (state (tick c)) = diff (state c).
Proof.
  unfold tick, fire. destruct (timer c) as [tm|]; [|done].
  destruct (due tm <=? _); [|done].
  match goal with
  | |- context [afterRender ?old ?c2] =>
      destruct (afterRender_frame old c2) as (-> & -> & _)
  end.
  apply nextStep_frame.
Qed.

Lemma onClick_frame e s :
  (e ≠ ClickMode → isAutoMode (onClick e s) = isAutoMode s)
  ∧ (isMutation e = false → diff (onClick e s) = diff s)
  ∧ (e ≠ ClickNext → e ≠ ClickPrevious → items (onClick e s) = items s).
Proof.
  destruct e; cbn [onClick isMutation]; unfold call;
    repeat match goal with |- _ ∧ _ => split end; intros; try done;
    try apply nextStep_frame; try apply previousStep_frame;
    unfold toggleItem, addItem, removeItem, toggleAutoMode;
    destruct s as [its pend sd st rp cp d sc am act]; simpl;
    by destruct act.
Qed.
End Frame.

(** X22.  What an event leaves alone, on any component: the mode is
    changed by the mode button only, the stored diff by the three item
    actions only, and the list on display by the two step buttons and the
    timer only. *)
Theorem handle_frame (c : Component) (e : Event) :
  (e ≠ ClickMode → isAutoMode (state (handle e c)) = isAutoMode (state c))
  ∧ (isMutation e = false → diff (state (handle e c)) = diff (state c))
  ∧ (e ≠ ClickNext → e ≠ ClickPrevious → (∀ d, e ≠ Elapse d) →
       items (state (handle e c)) = items (state c)).
Proof.
  assert (Hclick : ∀ e',
    let c' := if enabled e' (state c)
              then afterRender (state c)
                     (mkComponent (now c) (onClick e' (state c)) (timer c))
              else c in
    (e' ≠ ClickMode → isAutoMode (state c') = isAutoMode (state c))
    ∧ (isMutation e' = false → diff (state c') = diff (state c))
    ∧ (e' ≠ ClickNext → e' ≠ ClickPrevious → (∀ d, e' ≠ Elapse d) →
         items (state c') = items (state c))).
  { intros e' c'. subst c'. destruct (enabled e' (state c)); [|done].
    destruct (afterRender_frame (state c)
                (mkComponent (now c) (onClick e' (state c)) (timer c)))
      as (-> & -> & ->). cbn [state].
    destruct (onClick_frame e' (state c)) as (H1 & H2 & H3).
    split; [done|]. split; [done|]. by auto. }
  destruct e;
    try (match goal with
         | |- context [handle ?e' c] => exact (Hclick e')
         end).
  assert (Helapse : isAutoMode (state (elapse d c)) = isAutoMode (state c)
                    ∧ diff (state (elapse d c)) = diff (state c)).
  { induction d as [|d [IH1 IH2]] using N.peano_ind; [done|].
    rewrite elapse_succ, <- IH1, <- IH2. apply tick_frame. }
  cbn [handle]. destruct Helapse as [H1 H2].
  split; [done|]. split; [done|]. intros _ _ H. by destruct (H d).
Qed.

Lemma handle_frame_witness :
  let c := handle ClickToggleApple (mount 0) in
  isAutoMode (state (handle ClickReset c)) = isAutoMode (state c)
  ∧ diff (state (handle ClickReset c)) = diff (state c)
  ∧ items (state (handle ClickReset c)) = items (state c).
Proof.
  intros c. destruct (handle_frame c ClickReset) as (H1 & H2 & H3).
  split; [by apply H1|]. split; [by apply H2|]. by apply H3.
Defined.

(** ** The step on the page *)

(** X23.  On every reachable component the displays of the step agree:
    the stepper lights its first [step] cells and no other, the panel
    "Commit Phase Active" ([step >= 4]) is shown exactly when the flag
    [commitPhase] is set, the panel "Reconciliation Complete" exactly in
    step 3 and so only while [renderPhase] is set, and one of the five
    detail panels is shown exactly while the process is active. *)
Theorem reachable_step_display (c : Component) :
  reachable c →
  let s := state c in
  (∀ idx, (idx < 5)%nat →
     stepper (step s) !! idx
       = Some "bg-white border-slate-200 shadow-slate-200"%string
     ↔ step s ≤ Z.of_nat idx)
  ∧ commitPanel s = commitPhase s
  ∧ (reconciliationPanel s = true ↔ step s = 3)
  ∧ (reconciliationPanel s = true → renderPhase s = true)
  ∧ (isProcessActive s = true
     ↔ ∃ k, 1 ≤ k ≤ 5 ∧ detailPanel k s = true).
Proof.
  intros Hreach s. subst s.
  pose proof (reachable_displayed c Hreach) as [D1 D2 _ _ _ _ _].
  pose proof (reachable_consistent c Hreach) as [Hinv Hr _ _].
  unfold stepInRange, MAX_STEP, activeIffStep in *.
  unfold commitPanel, reconciliationPanel, detailPanel.
  split; [|split; [|split; [|split]]].
  - intros idx Hidx. unfold stepper, stepperCells.
    do 5 (destruct idx as [|idx];
          [cbn [imap lookup list_lookup]; unfold cellClass; simpl;
           zcases; simpl; split; (done || lia)|]).
    lia.
  - rewrite Z.geb_leb. destruct (Z.leb_spec 4 (step (state c))).
    + symmetry. by apply D2.
    + destruct (commitPhase (state c)); [|done].
      assert (4 ≤ step (state c)) by by apply D2. lia.
  - rewrite Z.geb_leb, andb_true_iff, Z.leb_le, Z.ltb_lt. lia.
  - rewrite Z.geb_leb, andb_true_iff, Z.leb_le, Z.ltb_lt.
    intros ?. apply D1. lia.
  - split.
    + intros Hact. exists (step (state c)). rewrite Z.eqb_refl.
      split; [|done].
      assert (step (state c) ≠ 0)
        by (intros H0; apply Hinv in H0; congruence).
      lia.
    + intros (k & Hk & Heq%Z.eqb_eq).
      destruct (isProcessActive (state c)); [done|].
      assert (step (state c) = 0) by by apply Hinv. lia.
Qed.

Lemma reachable_step_display_witness :
  let s := state (Nat.iter 3 (handle (Elapse 800))
                    (handle ClickToggleApple (mount 0))) in
  step s = 4 ∧ commitPanel s = commitPhase s
  ∧ (stepper (step s) !! 4%nat
       = Some "bg-white border-slate-200 shadow-slate-200"%string
     ↔ step s ≤ 4).
Proof.
  intros s.
  destruct (reachable_step_display
              (Nat.iter 3 (handle (Elapse 800))
                 (handle ClickToggleApple (mount 0))))
    as (H1 & H2 & _).
  - do 4 apply reachable_handle. apply reachable_mount.
  - split; [reflexivity|]. split; [exact H2|]. apply (H1 4%nat). lia.
Defined.

Example stepper_at_step_4 :
  stepper 4
  = [ "bg-blue-50 border-blue-400 shadow-blue-200";
      "bg-blue-50 border-blue-400 shadow-blue-200";
      "bg-blue-50 border-blue-400 shadow-blue-200";
      "bg-teal-50 border-teal-400 shadow-teal-200";
      "bg-white border-slate-200 shadow-slate-200" ]%string.
Proof. reflexivity. Qed.

(** ** The Fiber trees *)

(** X24.  In the second version of the page, for a diff whose [changedIds]
    is [getChangedIds prev next] (unique ids in [prev]): a node of the
    current tree carries the badge ["OLD"] exactly when its id is removed
    or toggled, a node of the work-in-progress tree carries the badge
    ["NEW"] exactly when its id is added or toggled, and no node carries
    the badge of the other tree. *)
Theorem fiberBadge_kinds (d : Diff) :
  NoDup (ids (Diff.prev d)) →
  Diff.changedIds d = getChangedIds (Diff.prev d) (Diff.next d) →
  (∀ p, p ∈ Diff.prev d →
     (fiberBadge d "current" p = Some "OLD"%string
      ↔ removed (Diff.prev d) (Diff.next d) (Item.id p)
        ∨ toggled (Diff.prev d) (Diff.next d) (Item.id p))
     ∧ fiberBadge d "current" p ≠ Some "NEW"%string)
  ∧ (∀ n, n ∈ Diff.next d →
     (fiberBadge d "workInProgress" n = Some "NEW"%string
      ↔ added (Diff.prev d) (Diff.next d) (Item.id n)
        ∨ toggled (Diff.prev d) (Diff.next d) (Item.id n))
     ∧ fiberBadge d "workInProgress" n ≠ Some "OLD"%string).
Proof.
  intros Hnd Hch.
  assert (Hkind : ∀ i, i ∈ Diff.changedIds d ↔
            added (Diff.prev d) (Diff.next d) i
            ∨ toggled (Diff.prev d) (Diff.next d) i
            ∨ removed (Diff.prev d) (Diff.next d) i)
    by (intros i; rewrite Hch; by apply elem_of_getChangedIds).
  split.
  - intros p Hp. unfold fiberBadge. simpl String.eqb.
    pose proof (includes_true (Diff.changedIds d) (Item.id p)) as Hinc.
    rewrite Hkind in Hinc.
    assert (Item.id p ∈ ids (Diff.prev d))
      by (unfold ids; by apply list_elem_of_fmap_2).
    unfold added, removed in *.
    destruct (includes (Diff.changedIds d) (Item.id p)).
    + split; [|done]. split; [intros _|done].
      destruct Hinc as [Hinc _]. destruct (Hinc eq_refl) as [[_ ?]|[?|?]];
        [done|by right|by left].
    + split; [|done]. split; [done|]. intros Hor.
      assert (false = true); [|done]. apply Hinc.
      destruct Hor; [by right; right|by right; left].
  - intros n Hn. unfold fiberBadge. simpl String.eqb.
    pose proof (includes_true (Diff.changedIds d) (Item.id n)) as Hinc.
    rewrite Hkind in Hinc.
    assert (Item.id n ∈ ids (Diff.next d))
      by (unfold ids; by apply list_elem_of_fmap_2).
    unfold added, removed in *.
    destruct (includes (Diff.changedIds d) (Item.id n)).
    + split; [|done]. split; [intros _|done].
      destruct Hinc as [Hinc _]. destruct (Hinc eq_refl) as [?|[?|[_ ?]]];
        [by left|by right|done].
    + split; [|done]. split; [done|]. intros Hor.
      assert (false = true); [|done]. apply Hinc.
      destruct Hor; [by left|by right; left].
Qed.

Lemma fiberBadge_kinds_witness :
  let next := [Item.mk 1 "Apple" true; Item.mk 4 "Item 4" false] in
  let d := Diff.mk initialItems next (getChangedIds initialItems next) in
  (fiberBadge d "current" (Item.mk 2 "Banana" false) = Some "OLD"%string
   ↔ removed (Diff.prev d) (Diff.next d) 2
     ∨ toggled (Diff.prev d) (Diff.next d) 2)
  ∧ fiberBadge d "current" (Item.mk 2 "Banana" false) ≠ Some "NEW"%string.
Proof.
  intros next d.
  assert (Hnd : NoDup (ids (Diff.prev d)))
    by (refine (bool_decide_unpack (NoDup _) _); vm_compute; exact I).
  destruct (fiberBadge_kinds d Hnd eq_refl) as [H1 _].
  apply (H1 (Item.mk 2 "Banana" false)). right. left.
Defined.

Example fiber_trees_scenario :
  let next := [Item.mk 1 "Apple" true; Item.mk 3 "Cherry" false;
               Item.mk 4 "Item 4" false] in
  let d := Diff.mk initialItems next (getChangedIds initialItems next) in
  currentFiberTree d = [Some "OLD"; Some "OLD"; None]%string
  ∧ workInProgressFiberTree d = [Some "NEW"; None; Some "NEW"]%string.
Proof. by vm_compute. Qed.
